(** * IMAP-Migrate: the resumable transfer engine of [imap_move_resume.py]

    A shallow embedding of the transfer ledger, the IMAP helpers, the
    per-mailbox pipeline [migrate_mailbox] and the orchestrator [main],
    followed by the properties of the specification that concern them.

    The two mail endpoints are outside the program.  They are modelled by a
    record of answer functions ([endpoints]) that may depend on everything
    the program has done so far; the program itself runs in a state and
    exception monad whose state is the ledger connection and the log of the
    calls made.

    What is left out: the cosmetic spinner thread; the text of the logging
    calls, except the "Migrating ..." line that marks the start of a
    mailbox's pipeline; the loading of arguments, configuration, mapping and
    exclude files; [conn_db.close()].  A session is identified by its side
    (source or destination): the rebinding of [src] and [dst] on reconnect
    is not tracked.  A fetch response entry always carries the three items
    asked for, so it is truthy and its lookups succeed, and the mail parser
    is total. *)

From Stdlib Require Import ZArith List String Bool Lia DecimalString DecimalZ DecimalPos.
Import ListNotations.
Open Scope string_scope.
Open Scope list_scope.
Open Scope Z_scope.

(** ** The transfer ledger (sqlite3) *)

(** One row of the table [transfers] of [DB_SCHEMA].  The column
    [transferred_at] is filled by the store's clock and read by no function
    of the program; it is not represented. *)
Record transfer := {
  col_id : Z;
  col_src_mailbox : string;
  col_src_uid : string;
  col_dst_mailbox : option string;
  col_dst_uid : option string;
  col_message_id : option string
}.

(** A connection sees its own uncommitted [rows]; [committed] is what the
    store holds durably. *)
Record connection := {
  rows : list transfer;
  committed : list transfer
}.

(** Python's [str] on an integer key. *)
Definition str (n : Z) : string := NilZero.string_of_int (Z.to_int n).

(** [open_db]: [CREATE TABLE IF NOT EXISTS] keeps what the store holds. *)
Definition open_db (store : list transfer) : connection :=
  {| rows := store; committed := store |}.

Definition same_key (m k : string) (r : transfer) : bool :=
  String.eqb (col_src_mailbox r) m && String.eqb (col_src_uid r) k.

(** The rowid an [INTEGER PRIMARY KEY] column receives: one more than the
    largest in the table. *)
Definition next_rowid (t : list transfer) : Z :=
  1 + fold_right Z.max 0 (map col_id t).

(** [INSERT OR REPLACE] under [UNIQUE(src_mailbox, src_uid)]: the rows in
    conflict with the new one are deleted, then the new row is inserted. *)
Definition insert_or_replace (t : list transfer) (r : transfer) : list transfer :=
  filter (fun old => negb (same_key (col_src_mailbox r) (col_src_uid r) old)) t
  ++ [r].

Definition commit (c : connection) : connection :=
  {| rows := rows c; committed := rows c |}.

(** [str(dst_uid) if dst_uid else None]: [None] and [0] are both falsy. *)
Definition dst_uid_text (dst_uid : option Z) : option string :=
  match dst_uid with
  | Some n => if n =? 0 then None else Some (str n)
  | None => None
  end.

Definition record_transfer (conn : connection) (src_mailbox : string) (src_uid : Z)
    (dst_mailbox : string) (dst_uid : option Z) (message_id : option string)
    : connection :=
  let r := {| col_id := next_rowid (rows conn);
              col_src_mailbox := src_mailbox;
              col_src_uid := str src_uid;
              col_dst_mailbox := Some dst_mailbox;
              col_dst_uid := dst_uid_text dst_uid;
              col_message_id := message_id |} in
  commit {| rows := insert_or_replace (rows conn) r; committed := committed conn |}.

(** [SELECT 1 ... LIMIT 1] then [fetchone()]: the tuple [(1,)] or [None]. *)
Definition already_transferred_by_src (conn : connection) (src_mailbox : string)
    (src_uid : Z) : option (list Z) :=
  match filter (same_key src_mailbox (str src_uid)) (rows conn) with
  | [] => None
  | _ :: _ => Some [1]
  end.

(** Python truth value of what [fetchone()] returns. *)
Definition truthy (r : option (list Z)) : bool :=
  match r with
  | Some (_ :: _) => true
  | _ => false
  end.

(** ** Calls to the outside and their log *)

Inductive side := Src | Dst.

Inductive exn :=
| IMAP4_abort        (* imaplib.IMAP4.abort *)
| OtherException.    (* any other Exception *)

(** One entry of a fetch response: the three items the pipeline asks for. *)
Record raw_msg := {
  RFC822 : string;
  FLAGS : list string;
  INTERNALDATE : Z
}.

Inductive call :=
| Connect (s : side)                          (* IMAPClient(host, port, ssl) *)
| Login (s : side)                            (* client.login *)
| Logout (s : side)                           (* client.logout *)
| ListFolders (s : side)                      (* client.list_folders *)
| SelectFolder (s : side) (mailbox : string)  (* client.select_folder *)
| CreateFolder (s : side) (mailbox : string)  (* client.create_folder *)
| Search (criteria : string)                  (* src.search *)
| Fetch (uids : list Z)                       (* src.fetch *)
| Append (mailbox : string) (msg : raw_msg)   (* dst.append *)
| Move (uid : Z) (mailbox : string)           (* src.move *)
| Sleep (seconds : Z)                         (* time.sleep *)
| LogMigrating (src_mailbox dst_mailbox : string). (* logging.info('Migrating ...') *)

Inductive event :=
| Done (c : call)
| Failed (c : call) (e : exn).

(** The behaviour of the two servers and of the mail parser.  Every answer
    may depend on the history, given newest event first. *)
Record endpoints := {
  failure : list event -> call -> option exn;
  folders : list event -> list string;
  search_result : list event -> string -> list Z;
  fetch_result : list event -> list Z -> list (Z * raw_msg);
  message_id_header : string -> option string
}.

Record state := {
  db : connection;
  log : list event       (* newest first *)
}.

(** The events in the order they happened. *)
Definition trace (st : state) : list event := rev (log st).

(** ** The monad: state and Python exceptions *)

Inductive result (A : Type) :=
| Ok (a : A)
| Raise (e : exn).
Arguments Ok {A} a.
Arguments Raise {A} e.

Definition M (A : Type) : Type := state -> result A * state.

Definition ret {A} (a : A) : M A := fun st => (Ok a, st).

Definition bind {A B} (m : M A) (k : A -> M B) : M B :=
  fun st =>
    match m st with
    | (Ok a, st') => k a st'
    | (Raise e, st') => (Raise e, st')
    end.

Definition raise {A} (e : exn) : M A := fun st => (Raise e, st).

(** [try: m  except <class>: h], the class given by [catches]. *)
Definition try_except {A} (m : M A) (catches : exn -> bool) (h : exn -> M A) : M A :=
  fun st =>
    match m st with
    | (Ok a, st') => (Ok a, st')
    | (Raise e, st') => if catches e then h e st' else (Raise e, st')
    end.

(** [try: m  finally: f]; an exception of [f] replaces the outcome of [m]. *)
Definition try_finally {A} (m : M A) (f : M unit) : M A :=
  fun st =>
    let (r, st') := m st in
    match f st' with
    | (Ok _, st'') => (r, st'')
    | (Raise e, st'') => (Raise e, st'')
    end.

Declare Scope monad_scope.
Delimit Scope monad_scope with monad.
Notation "x <- m ;; k" := (bind m (fun x => k))
  (at level 100, m at next level, right associativity) : monad_scope.
Notation "m ;; k" := (bind m (fun _ => k))
  (at level 100, right associativity) : monad_scope.
Open Scope monad_scope.

Definition is_abort (e : exn) : bool :=
  match e with IMAP4_abort => true | OtherException => false end.

(** [except Exception] and a bare [except] catch both classes. *)
Definition any_exception (e : exn) : bool := true.

Fixpoint for_each {A} (l : list A) (body : A -> M unit) : M unit :=
  match l with
  | [] => ret tt
  | x :: rest => body x ;; for_each rest body
  end.

Definition with_log (st : state) (ev : event) : state :=
  {| db := db st; log := ev :: log st |}.

(** ** The program *)

Section Program.

Variable env : endpoints.

(** A call that the endpoint may refuse with an exception. *)
Definition perform (c : call) : M unit :=
  fun st =>
    match failure env (log st) c with
    | None => (Ok tt, with_log st (Done c))
    | Some e => (Raise e, with_log st (Failed c e))
    end.

(** A call that returns what [answer] reads off the history before it. *)
Definition ask {A} (c : call) (answer : list event -> A) : M A :=
  fun st =>
    match failure env (log st) c with
    | None => (Ok (answer (log st)), with_log st (Done c))
    | Some e => (Raise e, with_log st (Failed c e))
    end.

(** [time.sleep] and the logging line cannot fail. *)
Definition emit (c : call) : M unit :=
  fun st => (Ok tt, with_log st (Done c)).

Definition write_db (f : connection -> connection) : M unit :=
  fun st => (Ok tt, {| db := f (db st); log := log st |}).

Definition read_db {A} (f : connection -> A) : M A :=
  fun st => (Ok (f (db st)), st).

(** *** IMAP connection helpers *)

Definition connect_imap (s : side) : M unit :=
  perform (Connect s) ;;
  perform (Login s).

Definition reconnect_imap (s : side) : M unit :=
  try_except (perform (Logout s)) any_exception (fun _ => ret tt) ;;
  emit (Sleep 3) ;;
  connect_imap s.

Definition list_mailboxes (s : side) : M (list string) :=
  ask (ListFolders s) (folders env).

Definition ensure_mailbox (s : side) (mailbox : string) : M bool :=
  try_except
    (perform (SelectFolder s mailbox) ;; ret true)
    any_exception
    (fun _ =>
       try_except
         (perform (CreateFolder s mailbox) ;; ret true)
         any_exception
         (fun _ => ret false)).

(** *** Safe search with retries *)

(** The iterations [attempt], [attempt + 1], ... of the loop of
    [safe_search], [remaining] of them; falling off the loop returns
    [None]. *)
Fixpoint safe_search_from (criteria : string) (max_retries base_delay : Z)
    (remaining : nat) (attempt : Z) : M (option (list Z)) :=
  match remaining with
  | O => ret None
  | S remaining' =>
      try_except
        (uids <- ask (Search criteria) (fun h => search_result env h criteria) ;;
         ret (Some uids))
        is_abort
        (fun e =>
           if attempt =? max_retries then raise e
           else
             emit (Sleep (base_delay * attempt)) ;;
             safe_search_from criteria max_retries base_delay remaining' (attempt + 1))
  end.

Definition safe_search (criteria : string) (max_retries base_delay : Z)
    : M (option (list Z)) :=
  safe_search_from criteria max_retries base_delay (Z.to_nat max_retries) 1.

(** *** Main migration logic *)

Definition archive_name (src_mailbox : string) : string :=
  ("Migrated/" ++ src_mailbox)%string.

(** [fetch_data.get(uid)] *)
Fixpoint fetch_get (fetch_data : list (Z * raw_msg)) (uid : Z) : option raw_msg :=
  match fetch_data with
  | [] => None
  | (k, v) :: rest => if k =? uid then Some v else fetch_get rest uid
  end.

(** The [for attempt in range(3)] loop around [src.fetch]; [None] when no
    attempt assigned [fetch_data]. *)
Fixpoint fetch_attempts (src_mailbox : string) (batch_uids : list Z)
    (remaining : nat) : M (option (list (Z * raw_msg))) :=
  match remaining with
  | O => ret None
  | S remaining' =>
      try_except
        (d <- ask (Fetch batch_uids) (fun h => fetch_result env h batch_uids) ;;
         ret (Some d))
        is_abort
        (fun _ =>
           reconnect_imap Src ;;
           perform (SelectFolder Src src_mailbox) ;;
           fetch_attempts src_mailbox batch_uids remaining')
  end.

(** The [for attempt in range(3)] loop around [dst.append]. *)
Fixpoint append_attempts (dst_mailbox : string) (msg : raw_msg)
    (remaining : nat) : M unit :=
  match remaining with
  | O => ret tt
  | S remaining' =>
      try_except
        (perform (Append dst_mailbox msg))
        is_abort
        (fun _ =>
           reconnect_imap Dst ;;
           _ <- ensure_mailbox Dst dst_mailbox ;;
           append_attempts dst_mailbox msg remaining')
  end.

(** What the body of [for uid in batch_uids] does between the two skip
    checks and [record_transfer]: [true] when control reaches
    [record_transfer], [false] when the failed move hits [continue]. *)
Definition transfer_message (dst_mailbox archive_mailbox : string) (dry_run : bool)
    (uid : Z) (raw : raw_msg) : M bool :=
  if negb dry_run then
    append_attempts dst_mailbox raw 3 ;;
    try_except
      (perform (Move uid archive_mailbox) ;; ret true)
      any_exception
      (fun _ => ret false)
  else ret true.

(** The body of [for uid in batch_uids]. *)
Definition process_uid (src_mailbox dst_mailbox archive_mailbox : string)
    (dry_run : bool) (fetch_data : list (Z * raw_msg)) (uid : Z) : M unit :=
  seen <- read_db (fun conn => already_transferred_by_src conn src_mailbox uid) ;;
  if truthy seen then ret tt
  else
    match fetch_get fetch_data uid with
    | None => ret tt
    | Some raw =>
        let message_id := message_id_header env (RFC822 raw) in
        reached <- transfer_message dst_mailbox archive_mailbox dry_run uid raw ;;
        if reached then
          write_db (fun conn =>
                      record_transfer conn src_mailbox uid dst_mailbox None message_id)
        else ret tt
    end.

(** The body of [for i in range(0, len(uids), batch)]. *)
Definition process_batch (src_mailbox dst_mailbox archive_mailbox : string)
    (dry_run : bool) (sleep_between : Z) (batch_uids : list Z) : M unit :=
  fetch_data <- fetch_attempts src_mailbox batch_uids 3 ;;
  match fetch_data with
  | None => ret tt
  | Some d =>
      for_each batch_uids
        (process_uid src_mailbox dst_mailbox archive_mailbox dry_run d) ;;
      if 0 <? sleep_between then emit (Sleep sleep_between) else ret tt
  end.

(** [uids[i:i+batch]] for [i] in [range(0, len(uids), batch)], [batch > 0]. *)
Fixpoint slices {A} (fuel batch : nat) (uids : list A) : list (list A) :=
  match fuel with
  | O => []
  | S fuel' =>
      match uids with
      | [] => []
      | _ :: _ => firstn batch uids :: slices fuel' batch (skipn batch uids)
      end
  end.

(** The batches the loop visits.  [range] raises for a zero step and is
    empty for a negative one. *)
Definition batches (uids : list Z) (batch : Z) : M (list (list Z)) :=
  if batch =? 0 then raise OtherException
  else if batch <? 0 then ret []
  else ret (slices (List.length uids) (Z.to_nat batch) uids).

Definition close_both : M unit :=
  perform (Logout Src) ;;
  perform (Logout Dst).

Definition migrate_mailbox (src_mailbox dst_mailbox : string) (batch sleep_between : Z)
    (dry_run : bool) : M unit :=
  emit (LogMigrating src_mailbox dst_mailbox) ;;
  connect_imap Src ;;
  connect_imap Dst ;;
  ensured <- ensure_mailbox Dst dst_mailbox ;;
  if negb ensured then close_both
  else
    let archive_mailbox := archive_name src_mailbox in
    _ <- ensure_mailbox Src archive_mailbox ;;
    selected <- try_except
                  (perform (SelectFolder Src src_mailbox) ;; ret true)
                  any_exception
                  (fun _ => close_both ;; ret false) ;;
    if negb selected then ret tt
    else
      searched <- try_except
                    (found <- safe_search "ALL" 5 5 ;; ret (Some found))
                    any_exception
                    (fun _ => close_both ;; ret None) ;;
      match searched with
      | None => ret tt
      | Some found =>
          try_finally
            (match found with
             | None => raise OtherException      (* len(None) *)
             | Some uids =>
                 bs <- batches uids batch ;;
                 for_each bs
                   (process_batch src_mailbox dst_mailbox archive_mailbox
                      dry_run sleep_between)
             end)
            close_both
      end.

(** *** Main *)

(** [mapping.get(src_mailbox, src_mailbox) if mapping else src_mailbox] *)
Fixpoint mapping_get (mapping : list (string * string)) (key default : string) : string :=
  match mapping with
  | [] => default
  | (k, v) :: rest => if String.eqb k key then v else mapping_get rest key default
  end.

Definition destination_of (mapping : option (list (string * string)))
    (src_mailbox : string) : string :=
  match mapping with
  | Some m => mapping_get m src_mailbox src_mailbox
  | None => src_mailbox
  end.

Definition excluded (exclude_folders : list string) (mailbox : string) : bool :=
  existsb (String.eqb mailbox) exclude_folders.

(** The loop of [main] over the listed mailboxes. *)
Definition migrate_all (exclude_folders : list string)
    (mapping : option (list (string * string))) (dry_run : bool)
    (mailboxes : list string) : M unit :=
  for_each mailboxes
    (fun src_mailbox =>
       if excluded exclude_folders src_mailbox then ret tt
       else migrate_mailbox src_mailbox (destination_of mapping src_mailbox)
              50 2 dry_run).

(** [main] after the arguments, the configuration and the ledger are
    loaded. *)
Definition main (exclude_folders : list string)
    (mapping : option (list (string * string))) (dry_run : bool) : M unit :=
  connect_imap Src ;;
  mailboxes <- list_mailboxes Src ;;
  perform (Logout Src) ;;
  migrate_all exclude_folders mapping dry_run mailboxes.

End Program.

(** ** Scenarios *)

Definition sample_message : raw_msg :=
  {| RFC822 := "Subject: hello"; FLAGS := ["\Seen"]; INTERNALDATE := 1700000000 |}.

(** Endpoints whose failures follow [fails]; the account lists [mailboxes],
    every search returns [uids] and every fetch returns [sample_message] for
    each key asked for. *)
Definition scripted (fails : list event -> call -> option exn)
    (mailboxes : list string) (uids : list Z) : endpoints :=
  {| failure := fails;
     folders := fun _ => mailboxes;
     search_result := fun _ _ => uids;
     fetch_result := fun _ batch => map (fun u => (u, sample_message)) batch;
     message_id_header := fun _ => None |}.

(** An empty ledger and nothing done yet. *)
Definition fresh : state := {| db := open_db []; log := [] |}.

Definition calm : list event -> call -> option exn := fun _ _ => None.

(** ** The ledger *)

(** The rows of a table that carry the pair [(m, k)]. *)
Definition matching (t : list transfer) (m k : string) : list transfer :=
  filter (same_key m k) t.

(** The arguments of one [record_transfer] call. *)
Record write := {
  w_src_mailbox : string;
  w_src_uid : Z;
  w_dst_mailbox : string;
  w_dst_uid : option Z;
  w_message_id : option string
}.

Definition record_write (conn : connection) (w : write) : connection :=
  record_transfer conn (w_src_mailbox w) (w_src_uid w) (w_dst_mailbox w)
    (w_dst_uid w) (w_message_id w).

Definition record_all (conn : connection) (ws : list write) : connection :=
  fold_left record_write ws conn.

(** The row a [record_transfer] call inserts into the table [t]. *)
Definition row_of (t : list transfer) (w : write) : transfer :=
  {| col_id := next_rowid t;
     col_src_mailbox := w_src_mailbox w;
     col_src_uid := str (w_src_uid w);
     col_dst_mailbox := Some (w_dst_mailbox w);
     col_dst_uid := dst_uid_text (w_dst_uid w);
     col_message_id := w_message_id w |}.

Definition unique_keys (t : list transfer) : Prop :=
  forall m k, (List.length (matching t m k) <= 1)%nat.

(** ** Session helpers *)

(** The contract of [ensureMailboxSelected] as the specification words it:
    select; on failure create the mailbox and select it again; [false] when
    that fails too. *)
Definition ensure_mailbox_selected_spec (env : endpoints) (s : side)
    (mailbox : string) : M bool :=
  try_except
    (perform env (SelectFolder s mailbox) ;; ret true)
    any_exception
    (fun _ =>
       try_except
         (perform env (CreateFolder s mailbox) ;;
          perform env (SelectFolder s mailbox) ;;
          ret true)
         any_exception
         (fun _ => ret false)).

(** A server on which no mailbox can be selected, though any can be
    created. *)
Definition unselectable : list event -> call -> option exn :=
  fun _ c =>
    match c with
    | SelectFolder _ _ => Some OtherException
    | _ => None
    end.

(** The log, in order, of [n] aborted searches with the pause that follows
    each, the first of them being attempt number [attempt]. *)
Fixpoint backoff (criteria : string) (base_delay attempt : Z) (n : nat) : list event :=
  match n with
  | O => []
  | S n' =>
      Failed (Search criteria) IMAP4_abort
        :: Done (Sleep (base_delay * attempt))
        :: backoff criteria base_delay (attempt + 1) n'
  end.

(** A server whose searches always abort. *)
Definition search_aborts : list event -> call -> option exn :=
  fun _ c =>
    match c with
    | Search _ => Some IMAP4_abort
    | _ => None
    end.

(** ** Reading the log *)

Definition call_of (ev : event) : call :=
  match ev with
  | Done c => c
  | Failed c _ => c
  end.

Definition is_append (c : call) : bool :=
  match c with Append _ _ => true | _ => false end.

Definition is_move (c : call) : bool :=
  match c with Move _ _ => true | _ => false end.

Definition is_fetch (c : call) : bool :=
  match c with Fetch _ => true | _ => false end.

(** The calls that change a mailbox: appending to the destination and
    moving at the source. *)
Definition is_transfer (c : call) : bool := is_append c || is_move c.

(** The calls of session handling, which carry no message. *)
Definition is_session (c : call) : bool :=
  match c with
  | Connect _ | Login _ | Logout _ | SelectFolder _ _ | CreateFolder _ _
  | Sleep _ => true
  | _ => false
  end.

(** The calls that are no session handling. *)
Definition carries_mail (c : call) : bool := negb (is_session c).

(** [m] extends the log, and by no call of the class [p]. *)
Definition avoids {A} (p : call -> bool) (m : M A) : Prop :=
  forall st r st',
    m st = (r, st') ->
    exists new, log st' = new ++ log st /\
                Forall (fun ev => p (call_of ev) = false) new.

(** [m] leaves the ledger as it is. *)
Definition keeps_db {A} (m : M A) : Prop :=
  forall st r st', m st = (r, st') -> db st' = db st.

(** ** More scenarios *)

(** A source on which no message can be moved. *)
Definition move_fails : list event -> call -> option exn :=
  fun _ c =>
    match c with
    | Move _ _ => Some OtherException
    | _ => None
    end.

(** A destination on which every append aborts the session. *)
Definition append_aborts : list event -> call -> option exn :=
  fun _ c =>
    match c with
    | Append _ _ => Some IMAP4_abort
    | _ => None
    end.

(** ** Counting in the log *)

(** The events of a class of calls that ended in a session abort. *)
Definition aborted (p : call -> bool) (ev : event) : bool :=
  match ev with
  | Failed c IMAP4_abort => p c
  | _ => false
  end.

(** The events of a class of calls that succeeded. *)
Definition succeeded (p : call -> bool) (ev : event) : bool :=
  match ev with
  | Done c => p c
  | Failed _ _ => false
  end.

(** Any event of a class of calls, whatever its outcome. *)
Definition attempted (p : call -> bool) (ev : event) : bool := p (call_of ev).

Definition count (f : event -> bool) (l : list event) : nat :=
  List.length (filter f l).

(** A source on which every fetch aborts the session and which, once three
    fetches have aborted, refuses new connections. *)
Definition fetch_aborts_then_refuses : list event -> call -> option exn :=
  fun h c =>
    match c with
    | Fetch _ => Some IMAP4_abort
    | Connect Src =>
        if (3 <=? count (aborted is_fetch) h)%nat then Some OtherException else None
    | _ => None
    end.

(** A source on which every fetch aborts the session, the session being
    reopened without trouble each time. *)
Definition fetch_aborts : list event -> call -> option exn :=
  fun _ c =>
    match c with
    | Fetch _ => Some IMAP4_abort
    | _ => None
    end.

(** The fetches of one given batch. *)
Definition is_fetch_of (batch_uids : list Z) (c : call) : bool :=
  match c with
  | Fetch uids => if list_eq_dec Z.eq_dec uids batch_uids then true else false
  | _ => false
  end.

(** ** The orchestrator's log *)

Definition is_log (c : call) : bool :=
  match c with LogMigrating _ _ => true | _ => false end.

(** The mailbox whose pipeline an event starts, if it starts one. *)
Definition start_of (ev : event) : list string :=
  match ev with
  | Done (LogMigrating src_mailbox _) => [src_mailbox]
  | _ => []
  end.

(** The source mailboxes whose pipeline was started, in the order in which
    they were, read off a piece of log (newest first). *)
Definition started (new : list event) : list string :=
  flat_map start_of (rev new).

(** The mailboxes [main] hands to the pipeline. *)
Definition to_migrate (exclude_folders mailboxes : list string) : list string :=
  filter (fun m => negb (excluded exclude_folders m)) mailboxes.

(** A destination server that refuses every connection. *)
Definition refuses_destination : list event -> call -> option exn :=
  fun _ c =>
    match c with
    | Connect Dst => Some OtherException
    | _ => None
    end.

(** [m] always ends normally, with a value satisfying [P]. *)
Definition returns {A} (P : A -> Prop) (m : M A) : Prop :=
  forall st, exists a st', m st = (Ok a, st') /\ P a.

(** [m] always ends with an exception. *)
Definition always_raises {A} (m : M A) : Prop :=
  forall st, exists e st', m st = (Raise e, st').

(** ** Running a pipeline again *)

(** Endpoints whose answers depend on the call alone, not on what happened
    before: the mailboxes and the servers' behaviour stay as they are. *)
Definition history_free (env : endpoints) : Prop :=
  (forall h h' c, failure env h c = failure env h' c) /\
  (forall h h' criteria, search_result env h criteria = search_result env h' criteria) /\
  (forall h h' uids, fetch_result env h uids = fetch_result env h' uids).

(** The outcome of [m] is the same from every state. *)
Definition blind {A} (m : M A) : Prop :=
  forall st1 st2, fst (m st1) = fst (m st2).

(** Every key of [src_mailbox] recorded in the ledger [a] is recorded in
    the ledger [b]. *)
Definition covers (src_mailbox : string) (a b : connection) : Prop :=
  forall uid,
    truthy (already_transferred_by_src a src_mailbox uid) = true ->
    truthy (already_transferred_by_src b src_mailbox uid) = true.

Definition is_raise {A} (r : result A) : bool :=
  match r with
  | Ok _ => false
  | Raise _ => true
  end.

(** [m] only adds keys to the ledger and, run again on a ledger that holds
    all the keys its first run left (and no other, if that run raised),
    ends as the first run did and leaves that ledger as it is. *)
Definition rerunnable {A} (src_mailbox : string) (m : M A) : Prop :=
  forall st1 r1 st1',
    m st1 = (r1, st1') ->
    covers src_mailbox (db st1) (db st1') /\
    forall st2,
      covers src_mailbox (db st1') (db st2) ->
      (is_raise r1 = true -> covers src_mailbox (db st2) (db st1')) ->
      exists st2', m st2 = (r1, st2') /\ db st2' = db st2.

(** ** More of the ledger *)

(** The rowids of a table. *)
Definition rowids (t : list transfer) : list Z := map col_id t.

(** ** What a run does to the ledger *)

(** Every state change of [m] moves the ledger along the relation [R]. *)
Definition steps {A} (R : connection -> connection -> Prop) (m : M A) : Prop :=
  forall st r st', m st = (r, st') -> R (db st) (db st').

(** A ledger in good order: one row per pair, nothing uncommitted. *)
Definition ledger_sound (c : connection) : Prop :=
  unique_keys (rows c) /\ committed c = rows c.

(** ** Bounds on the calls of an action *)

(** [m] extends the log, and by at most [n] calls of the class [p]. *)
Definition at_most {A} (p : call -> bool) (n : nat) (m : M A) : Prop :=
  forall st r st',
    m st = (r, st') ->
    exists new, log st' = new ++ log st /\ (count (attempted p) new <= n)%nat.

(** ** The order of the moves *)

(** [l1] is [l2] with some elements left out, the order kept. *)
Inductive subseq {A : Type} : list A -> list A -> Prop :=
| subseq_nil : subseq [] []
| subseq_skip x l1 l2 : subseq l1 l2 -> subseq l1 (x :: l2)
| subseq_take x l1 l2 : subseq l1 l2 -> subseq (x :: l1) (x :: l2).

Definition moved_by (ev : event) : list Z :=
  match call_of ev with
  | Move uid _ => [uid]
  | _ => []
  end.

(** The keys of the moves attempted in a piece of log (newest first), in
    the order in which they were attempted. *)
Definition moved (new : list event) : list Z := flat_map moved_by (rev new).

(** [m] extends the log, its moves being for keys of some list in [L], in
    the order of that list. *)
Definition moves_in {A} (L : list Z -> Prop) (m : M A) : Prop :=
  forall st r st',
    m st = (r, st') ->
    exists new l, log st' = new ++ log st /\ L l /\ subseq (moved new) l.

(** The values [m] can return satisfy [Q]. *)
Definition yields {A} (Q : A -> Prop) (m : M A) : Prop :=
  forall st a st', m st = (Ok a, st') -> Q a.

(** ** Sessions *)

Definition is_logout (c : call) : bool :=
  match c with Logout _ => true | _ => false end.

(** The calls that read or change the mailboxes of the source account. *)
Definition touches_source (c : call) : bool :=
  match c with
  | SelectFolder Src _ | CreateFolder Src _ | Search _ | Fetch _ | Move _ _ => true
  | _ => false
  end.

(** The newest events (first in the list) are the closing of both
    sessions: the source logout, which either failed or was followed by
    the destination logout. *)
Definition ends_closed (new : list event) : bool :=
  match new with
  | Failed (Logout Src) _ :: _ => true
  | ev :: Done (Logout Src) :: _ =>
      match call_of ev with
      | Logout Dst => true
      | _ => false
      end
  | _ => false
  end.

Definition is_ok {A} (r : result A) : bool := negb (is_raise r).

(** The log ends with the closing of the sessions and, when the action
    ended normally, with a destination logout that succeeded. *)
Definition closed {A} (new : list event) (r : result A) : Prop :=
  ends_closed new = true /\
  (is_ok r = true -> hd_error new = Some (Done (Logout Dst))).

(** Whatever [m] does, the last thing it does is close both sessions. *)
Definition closing {A} (m : M A) : Prop :=
  forall st r st',
    m st = (r, st') ->
    exists new, log st' = new ++ log st /\ closed new r.

(** [m] only extends the log. *)
Definition extends {A} (m : M A) : Prop := avoids (fun _ => false) m.

Definition is_search (c : call) : bool :=
  match c with Search _ => true | _ => false end.

(** The seconds an event spends sleeping. *)
Definition sleep_of (ev : event) : Z :=
  match ev with
  | Done (Sleep seconds) => seconds
  | _ => 0
  end.

(** The time slept in a piece of log. *)
Definition slept (new : list event) : Z := fold_right Z.add 0 (map sleep_of new).

(** The mailboxes a pipeline for [src_mailbox] and [dst_mailbox] may name
    in its calls. *)
Definition addressed (src_mailbox dst_mailbox : string) (c : call) : Prop :=
  match c with
  | SelectFolder Src mailbox =>
      mailbox = src_mailbox \/ mailbox = archive_name src_mailbox
  | CreateFolder Src mailbox => mailbox = archive_name src_mailbox
  | SelectFolder Dst mailbox | CreateFolder Dst mailbox => mailbox = dst_mailbox
  | Append mailbox _ => mailbox = dst_mailbox
  | Move _ mailbox => mailbox = archive_name src_mailbox
  | Search criteria => criteria = "ALL"
  | ListFolders _ => False
  | LogMigrating s d => s = src_mailbox /\ d = dst_mailbox
  | Connect _ | Login _ | Logout _ | Fetch _ | Sleep _ => True
  end.

(** The calls that are not [addressed], as a class of calls. *)
Definition misaddressed (src_mailbox dst_mailbox : string) (c : call) : bool :=
  match c with
  | SelectFolder Src mailbox =>
      negb (String.eqb mailbox src_mailbox
            || String.eqb mailbox (archive_name src_mailbox))
  | CreateFolder Src mailbox => negb (String.eqb mailbox (archive_name src_mailbox))
  | SelectFolder Dst mailbox | CreateFolder Dst mailbox =>
      negb (String.eqb mailbox dst_mailbox)
  | Append mailbox _ => negb (String.eqb mailbox dst_mailbox)
  | Move _ mailbox => negb (String.eqb mailbox (archive_name src_mailbox))
  | Search criteria => negb (String.eqb criteria "ALL")
  | ListFolders _ => true
  | LogMigrating s d => negb (String.eqb s src_mailbox && String.eqb d dst_mailbox)
  | Connect _ | Login _ | Logout _ | Fetch _ | Sleep _ => false
  end.

(** [m] extends the log, and only by calls that satisfy [P]. *)
Definition confined {A} (P : call -> Prop) (m : M A) : Prop :=
  forall st r st',
    m st = (r, st') ->
    exists new, log st' = new ++ log st /\ Forall (fun ev => P (call_of ev)) new.

(** Where a run of [main] may write: a message is appended only to the
    destination of a listed mailbox that is not excluded, and is moved
    only to the archive of such a mailbox; no other mailbox is created. *)
Definition routed (env : endpoints) (exclude_folders : list string)
    (mapping : option (list (string * string))) (c : call) : Prop :=
  let candidate (name_of : string -> string) (mailbox : string) :=
    exists h src_mailbox,
      In src_mailbox (folders env h) /\
      excluded exclude_folders src_mailbox = false /\
      mailbox = name_of src_mailbox in
  match c with
  | Append mailbox _ | CreateFolder Dst mailbox | SelectFolder Dst mailbox =>
      candidate (destination_of mapping) mailbox
  | Move _ mailbox | CreateFolder Src mailbox => candidate archive_name mailbox
  | LogMigrating s d =>
      candidate (fun m => m) s /\ d = destination_of mapping s
  | _ => True
  end.

(** ** Loading the exclusion list *)

(** [str.lstrip] and [str.rstrip] without argument, for the characters
    [isspace] that Python counts as whitespace. *)
Fixpoint lstrip (isspace : Ascii.ascii -> bool) (s : string) : string :=
  match s with
  | EmptyString => EmptyString
  | String c rest => if isspace c then lstrip isspace rest else s
  end.

Fixpoint rstrip (isspace : Ascii.ascii -> bool) (s : string) : string :=
  match s with
  | EmptyString => EmptyString
  | String c rest =>
      match rstrip isspace rest with
      | EmptyString => if isspace c then EmptyString else String c EmptyString
      | kept => String c kept
      end
  end.

(** [line.strip()] *)
Definition strip (isspace : Ascii.ascii -> bool) (line : string) : string :=
  rstrip isspace (lstrip isspace line).

(** The truth value of a [str]. *)
Definition nonempty (s : string) : bool :=
  match s with
  | EmptyString => false
  | String _ _ => true
  end.

(** [{line.strip() for line in f if line.strip()}] over the lines that
    iterating the open file yields; the set is used for membership only
    and is kept as the list of its elements. *)
Definition load_exclude_list (isspace : Ascii.ascii -> bool) (lines : list string)
    : list string :=
  map (strip isspace) (filter (fun line => nonempty (strip isspace line)) lines).

(** * Properties *)

Lemma same_key_refl r : same_key (col_src_mailbox r) (col_src_uid r) r = true.
Proof. unfold same_key. now rewrite !String.eqb_refl. Qed.

Lemma same_key_true m k r :
  same_key m k r = true <-> col_src_mailbox r = m /\ col_src_uid r = k.
Proof.
  unfold same_key. rewrite andb_true_iff, !String.eqb_eq. tauto.
Qed.

Lemma matching_app t1 t2 m k :
  matching (t1 ++ t2) m k = matching t1 m k ++ matching t2 m k.
Proof. apply filter_app. Qed.

Lemma matching_without t m k m' k' :
  matching (filter (fun old => negb (same_key m k old)) t) m' k' =
  if String.eqb m' m && String.eqb k' k then [] else matching t m' k'.
Proof.
  unfold matching.
  induction t as [|r t IH]; simpl.
  - now destruct (String.eqb m' m && String.eqb k' k).
  - destruct (same_key m k r) eqn:Hr; simpl.
    + rewrite IH.
      destruct (String.eqb m' m && String.eqb k' k) eqn:Hmk; [reflexivity|].
      destruct (same_key m' k' r) eqn:Hr'; [|reflexivity].
      apply same_key_true in Hr, Hr'. destruct Hr as [<- <-], Hr' as [E1 E2].
      rewrite <- E1, <- E2, !String.eqb_refl in Hmk. discriminate.
    + rewrite IH.
      destruct (String.eqb m' m && String.eqb k' k) eqn:Hmk.
      * apply andb_true_iff in Hmk. destruct Hmk as [E1 E2].
        apply String.eqb_eq in E1, E2. subst m' k'. now rewrite Hr.
      * reflexivity.
Qed.

Lemma matching_insert_or_replace t r m k :
  matching (insert_or_replace t r) m k =
  if String.eqb m (col_src_mailbox r) && String.eqb k (col_src_uid r)
  then [r] else matching t m k.
Proof.
  unfold insert_or_replace. rewrite matching_app, matching_without.
  unfold matching at 1. simpl. unfold same_key.
  rewrite (String.eqb_sym (col_src_mailbox r)), (String.eqb_sym (col_src_uid r)).
  destruct (String.eqb m (col_src_mailbox r) && String.eqb k (col_src_uid r));
    [reflexivity | apply app_nil_r].
Qed.

Lemma rows_record_write conn w :
  rows (record_write conn w) = insert_or_replace (rows conn) (row_of (rows conn) w).
Proof. reflexivity. Qed.

Lemma committed_record_write conn w :
  committed (record_write conn w) = rows (record_write conn w).
Proof. reflexivity. Qed.

Lemma unique_keys_record_write conn w :
  unique_keys (rows conn) -> unique_keys (rows (record_write conn w)).
Proof.
  intros U m k. rewrite rows_record_write, matching_insert_or_replace.
  destruct (_ && _); [simpl; lia | apply U].
Qed.

Lemma unique_keys_record_all conn ws :
  unique_keys (rows conn) -> unique_keys (rows (record_all conn ws)).
Proof.
  revert conn. induction ws as [|w ws IH]; intros conn U; simpl; [exact U|].
  apply IH, unique_keys_record_write, U.
Qed.

Lemma committed_record_all conn ws :
  committed conn = rows conn ->
  committed (record_all conn ws) = rows (record_all conn ws).
Proof.
  revert conn. induction ws as [|w ws IH]; intros conn C; simpl; [exact C|].
  apply IH, committed_record_write.
Qed.

(** C6.  After any sequence of [record_transfer] calls on a ledger opened
    empty, every pair (source mailbox, source key) has at most one row and
    the store holds exactly the rows the connection sees; one more call
    leaves, for its own pair, the single row it inserts, leaves the rows of
    every other pair as they were, and returns with its row committed. *)
Theorem record_transfer_unique_replace_commit :
  forall (ws : list write),
    let conn := record_all (open_db []) ws in
    (forall m k, (List.length (matching (rows conn) m k) <= 1)%nat) /\
    committed conn = rows conn /\
    (forall (w : write),
        let conn' := record_write conn w in
        (forall m k,
            matching (rows conn') m k =
            if String.eqb m (w_src_mailbox w) && String.eqb k (str (w_src_uid w))
            then [row_of (rows conn) w]
            else matching (rows conn) m k) /\
        committed conn' = rows conn' /\
        In (row_of (rows conn) w) (committed conn')).
Proof.
  intros ws conn. split; [|split].
  - apply unique_keys_record_all. intros m k. simpl. lia.
  - apply committed_record_all. reflexivity.
  - intros w conn'. split; [|split].
    + intros m k. unfold conn'.
      rewrite rows_record_write, matching_insert_or_replace. reflexivity.
    + reflexivity.
    + unfold conn'. rewrite committed_record_write, rows_record_write.
      unfold insert_or_replace. apply in_or_app. right. now left.
Qed.

(** C10.  Both functions pass the key through [str], so the check that
    follows a [record_transfer] for the same mailbox and key finds a row:
    it returns the tuple [(1,)], which is truthy. *)
Theorem already_transferred_after_record :
  forall conn src_mailbox (src_uid : Z) dst_mailbox dst_uid message_id,
    let conn' := record_transfer conn src_mailbox src_uid dst_mailbox dst_uid
                   message_id in
    already_transferred_by_src conn' src_mailbox src_uid = Some [1] /\
    truthy (already_transferred_by_src conn' src_mailbox src_uid) = true.
Proof.
  intros conn m u d du mid conn'.
  assert (E : already_transferred_by_src conn' m u = Some [1]).
  { unfold already_transferred_by_src.
    change (filter (same_key m (str u)) (rows conn')) with (matching (rows conn') m (str u)).
    unfold conn', record_transfer. simpl rows.
    rewrite matching_insert_or_replace. simpl.
    now rewrite !String.eqb_refl. }
  rewrite E. split; reflexivity.
Qed.

(** ** The monad and the log *)

Lemma trace_with_log st ev : trace (with_log st ev) = trace st ++ [ev].
Proof. reflexivity. Qed.

(** ** [ensure_mailbox] *)

(** C4, as the code has it.  [ensure_mailbox] never raises.  It tries to
    select the mailbox; when that fails it tries to create it and does not
    select again; it answers [false] exactly when the select and the create
    both failed. *)
Theorem ensure_mailbox_select_else_create :
  forall env s mailbox st,
  exists b st',
    ensure_mailbox env s mailbox st = (Ok b, st') /\
    db st' = db st /\
    ((b = true /\
      trace st' = trace st ++ [Done (SelectFolder s mailbox)]) \/
     (b = true /\ exists e,
      trace st' = trace st ++ [Failed (SelectFolder s mailbox) e;
                               Done (CreateFolder s mailbox)]) \/
     (b = false /\ exists e e',
      trace st' = trace st ++ [Failed (SelectFolder s mailbox) e;
                               Failed (CreateFolder s mailbox) e'])).
Proof.
  intros env s mailbox st.
  unfold ensure_mailbox, try_except, bind, perform, ret. simpl.
  destruct (failure env (log st) (SelectFolder s mailbox)) as [e|] eqn:Hsel.
  - simpl.
    destruct (failure env (Failed (SelectFolder s mailbox) e :: log st)
                (CreateFolder s mailbox)) as [e'|] eqn:Hcre; simpl.
    + eexists _, _. split; [reflexivity|]. split; [reflexivity|].
      right. right. split; [reflexivity|]. exists e, e'.
      unfold trace. simpl. now rewrite <- app_assoc.
    + eexists _, _. split; [reflexivity|]. split; [reflexivity|].
      right. left. split; [reflexivity|]. exists e.
      unfold trace. simpl. now rewrite <- app_assoc.
  - eexists _, _. split; [reflexivity|]. split; [reflexivity|].
    left. split; reflexivity.
Qed.

(** C4, as the specification words it, fails: where selecting always fails
    and creating succeeds, the contract with a second select answers
    [false] after three calls, and [ensure_mailbox] answers [true] after
    two, the second select never made. *)
Lemma ensure_mailbox_does_not_reselect :
  let env := scripted unselectable [] [] in
  ensure_mailbox_selected_spec env Dst "Archive" fresh =
    (Ok false,
     {| db := open_db [];
        log := [Failed (SelectFolder Dst "Archive") OtherException;
                Done (CreateFolder Dst "Archive");
                Failed (SelectFolder Dst "Archive") OtherException] |}) /\
  ensure_mailbox env Dst "Archive" fresh =
    (Ok true,
     {| db := open_db [];
        log := [Done (CreateFolder Dst "Archive");
                Failed (SelectFolder Dst "Archive") OtherException] |}) /\
  ensure_mailbox env Dst "Archive" fresh <>
  ensure_mailbox_selected_spec env Dst "Archive" fresh.
Proof.
  split; [reflexivity|]. split; [reflexivity|]. discriminate.
Qed.

(** ** [safe_search] *)

(** The loop of [safe_search] when its last iteration is the one numbered
    [max_retries]: some number [k] of aborted attempts, each followed by
    its pause, then one last attempt that decides the outcome. *)
Lemma safe_search_from_last env criteria max_retries base_delay :
  forall remaining attempt st,
    attempt + Z.of_nat remaining = max_retries ->
    exists (k : nat) r st' final,
      safe_search_from env criteria max_retries base_delay (S remaining) attempt st
        = (r, st') /\
      db st' = db st /\
      (k <= remaining)%nat /\
      trace st' = trace st ++ backoff criteria base_delay attempt k ++ [final] /\
      ((exists h, r = Ok (Some (search_result env h criteria)) /\
                  final = Done (Search criteria)) \/
       (r = Raise OtherException /\
        final = Failed (Search criteria) OtherException) \/
       (r = Raise IMAP4_abort /\
        final = Failed (Search criteria) IMAP4_abort /\ k = remaining)).
Proof.
  induction remaining as [|n IH]; intros attempt st Hlast.
  - (* the last attempt *)
    assert (attempt = max_retries) as -> by lia.
    simpl. unfold try_except, bind, ask, ret, raise.
    destruct (failure env (log st) (Search criteria)) as [[|]|] eqn:F; simpl.
    + rewrite Z.eqb_refl.
      exists 0%nat. eexists _, _, _. split; [reflexivity|].
      split; [reflexivity|]. split; [lia|]. split; [reflexivity|].
      right; right. split; [reflexivity|]. split; reflexivity.
    + exists 0%nat. eexists _, _, _. split; [reflexivity|].
      split; [reflexivity|]. split; [lia|]. split; [reflexivity|].
      right; left; split; reflexivity.
    + exists 0%nat. eexists _, _, _. split; [reflexivity|].
      split; [reflexivity|]. split; [lia|]. split; [reflexivity|].
      left; eexists; split; reflexivity.
  - (* an attempt before the last *)
    cbn [safe_search_from]. unfold try_except at 1, bind at 1 2, ask at 1, ret at 1.
    destruct (failure env (log st) (Search criteria)) as [[|]|] eqn:F; cbn [is_abort].
    + assert (Hne : (attempt =? max_retries) = false) by (apply Z.eqb_neq; lia).
      rewrite Hne.
      unfold emit at 1.
      set (st1 := with_log (with_log st (Failed (Search criteria) IMAP4_abort))
                    (Done (Sleep (base_delay * attempt)))).
      assert (Hnext : attempt + 1 + Z.of_nat n = max_retries) by lia.
      destruct (IH (attempt + 1) st1 Hnext)
        as (k & r & st' & final & Hrun & Hdb & Hk & Htr & Hout).
      exists (S k), r, st', final. split; [exact Hrun|].
      split; [exact Hdb|]. split; [lia|]. split.
      * rewrite Htr. unfold st1. rewrite !trace_with_log.
        simpl. now rewrite <- !app_assoc.
      * destruct Hout as [H|[H|(H1 & H2 & H3)]]; [left; exact H | right; left; exact H |].
        right; right. split; [exact H1|]. split; [exact H2 | lia].
    + exists 0%nat. eexists _, _, _. split; [reflexivity|].
      split; [reflexivity|]. split; [lia|]. split; [reflexivity|].
      right; left; split; reflexivity.
    + exists 0%nat. eexists _, _, _. split; [reflexivity|].
      split; [reflexivity|]. split; [lia|]. split; [reflexivity|].
      left; eexists; split; reflexivity.
Qed.

(** C7.  With its defaults (5 attempts, base delay 5) [safe_search] makes
    [k + 1 <= 5] searches: the first [k] abort and attempt number [j] among
    them is followed by a pause of [5 * j]; the last one either succeeds
    and its result is returned, or fails with another exception, which
    propagates without a retry, or is the fifth abort, which is raised
    again with no pause and no further attempt.  The ledger is not
    touched. *)
Theorem safe_search_linear_backoff :
  forall env criteria st,
  exists (k : nat) r st' final,
    safe_search env criteria 5 5 st = (r, st') /\
    db st' = db st /\
    (k <= 4)%nat /\
    trace st' = trace st ++ backoff criteria 5 1 k ++ [final] /\
    ((exists h, r = Ok (Some (search_result env h criteria)) /\
                final = Done (Search criteria)) \/
     (r = Raise OtherException /\
      final = Failed (Search criteria) OtherException) \/
     (r = Raise IMAP4_abort /\
      final = Failed (Search criteria) IMAP4_abort /\ k = 4%nat)).
Proof.
  intros env criteria st.
  exact (safe_search_from_last env criteria 5 5 4 1 st eq_refl).
Qed.

(** The schedule in full: five aborted searches, pauses of 5, 10, 15 and 20
    between them, none after the fifth, whose abort is raised again. *)
Example safe_search_five_aborts :
  let (r, st') := safe_search (scripted search_aborts [] []) "ALL" 5 5 fresh in
  r = Raise IMAP4_abort /\
  trace st' =
    [Failed (Search "ALL") IMAP4_abort; Done (Sleep 5);
     Failed (Search "ALL") IMAP4_abort; Done (Sleep 10);
     Failed (Search "ALL") IMAP4_abort; Done (Sleep 15);
     Failed (Search "ALL") IMAP4_abort; Done (Sleep 20);
     Failed (Search "ALL") IMAP4_abort].
Proof. split; reflexivity. Qed.

(** ** What an action adds to the log *)

Section Avoids.

Context {A B : Type}.
Variable p : call -> bool.

Lemma avoids_ret (a : A) : avoids p (ret a).
Proof.
  intros st r st' H. inversion H; subst. exists []. split; [reflexivity | constructor].
Qed.

Lemma avoids_raise (e : exn) : avoids p (@raise A e).
Proof.
  intros st r st' H. inversion H; subst. exists []. split; [reflexivity | constructor].
Qed.

Lemma avoids_bind (m : M A) (k : A -> M B) :
  avoids p m -> (forall a, avoids p (k a)) -> avoids p (bind m k).
Proof.
  intros Hm Hk st r st' H. unfold bind in H.
  destruct (m st) as [[a|e] st1] eqn:E.
  - destruct (Hm _ _ _ E) as (n1 & L1 & F1).
    destruct (Hk a _ _ _ H) as (n2 & L2 & F2).
    exists (n2 ++ n1). split.
    + now rewrite L2, L1, app_assoc.
    + apply Forall_app. split; assumption.
  - inversion H; subst. exact (Hm _ _ _ E).
Qed.

Lemma avoids_try_except (m : M A) catches (h : exn -> M A) :
  avoids p m -> (forall e, avoids p (h e)) -> avoids p (try_except m catches h).
Proof.
  intros Hm Hh st r st' H. unfold try_except in H.
  destruct (m st) as [[a|e] st1] eqn:E.
  - inversion H; subst. exact (Hm _ _ _ E).
  - destruct (catches e).
    + destruct (Hm _ _ _ E) as (n1 & L1 & F1).
      destruct (Hh e _ _ _ H) as (n2 & L2 & F2).
      exists (n2 ++ n1). split.
      * now rewrite L2, L1, app_assoc.
      * apply Forall_app. split; assumption.
    + inversion H; subst. exact (Hm _ _ _ E).
Qed.

Lemma avoids_try_finally (m : M A) (f : M unit) :
  avoids p m -> avoids p f -> avoids p (try_finally m f).
Proof.
  intros Hm Hf st r st' H. unfold try_finally in H.
  destruct (m st) as [r1 st1] eqn:E.
  destruct (f st1) as [[u|e] st2] eqn:E2; inversion H; subst;
    destruct (Hm _ _ _ E) as (n1 & L1 & F1);
    destruct (Hf _ _ _ E2) as (n2 & L2 & F2);
    exists (n2 ++ n1); (split; [now rewrite L2, L1, app_assoc |
                                apply Forall_app; split; assumption]).
Qed.

End Avoids.

Lemma avoids_for_each {A} p (l : list A) (body : A -> M unit) :
  (forall x, avoids p (body x)) -> avoids p (for_each l body).
Proof.
  intros Hb. induction l as [|x l IH]; simpl.
  - apply avoids_ret.
  - apply avoids_bind; [apply Hb | intros _; exact IH].
Qed.

Lemma avoids_perform env p c : p c = false -> avoids p (perform env c).
Proof.
  intros Hc st r st' H. unfold perform in H.
  destruct (failure env (log st) c); inversion H; subst;
    (eexists [_]; split; [reflexivity | repeat constructor; exact Hc]).
Qed.

Lemma avoids_ask {A} env p c (answer : list event -> A) :
  p c = false -> avoids p (ask env c answer).
Proof.
  intros Hc st r st' H. unfold ask in H.
  destruct (failure env (log st) c); inversion H; subst;
    (eexists [_]; split; [reflexivity | repeat constructor; exact Hc]).
Qed.

Lemma avoids_emit p c : p c = false -> avoids p (emit c).
Proof.
  intros Hc st r st' H. inversion H; subst.
  eexists [_]; split; [reflexivity | repeat constructor; exact Hc].
Qed.

Lemma avoids_read_db {A} p (f : connection -> A) : avoids p (read_db f).
Proof.
  intros st r st' H. inversion H; subst. exists []. split; [reflexivity | constructor].
Qed.

Lemma avoids_write_db p f : avoids p (write_db f).
Proof.
  intros st r st' H. inversion H; subst. exists []. split; [reflexivity | constructor].
Qed.

(** One step of a syntax-directed proof of [avoids]. *)
Ltac avoids_step :=
  match goal with
  | H : avoids ?p ?m |- avoids ?p ?m => exact H
  | H : forall x, avoids ?p (?f x) |- avoids ?p (?f _) => apply H
  | |- avoids _ (bind _ _) => apply avoids_bind; [|intro]
  | |- avoids _ (try_except _ _ _) => apply avoids_try_except; [|intro]
  | |- avoids _ (try_finally _ _) => apply avoids_try_finally
  | |- avoids _ (for_each _ _) => apply avoids_for_each; intro
  | |- avoids _ (ret _) => apply avoids_ret
  | |- avoids _ (raise _) => apply avoids_raise
  | |- avoids _ (perform _ _) => apply avoids_perform; auto
  | |- avoids _ (ask _ _ _) => apply avoids_ask; auto
  | |- avoids _ (emit _) => apply avoids_emit; auto
  | |- avoids _ (read_db _) => apply avoids_read_db
  | |- avoids _ (write_db _) => apply avoids_write_db
  | |- avoids _ (if ?b then _ else _) => destruct b
  | |- avoids _ (match ?x with _ => _ end) => destruct x
  end.

Ltac avoids_auto := repeat avoids_step.

Section SessionCalls.

Variable env : endpoints.
Variable p : call -> bool.
Hypothesis p_session : forall c, is_session c = true -> p c = false.

Lemma avoids_connect_imap s : avoids p (connect_imap env s).
Proof. unfold connect_imap. avoids_auto. Qed.

Lemma avoids_reconnect_imap s : avoids p (reconnect_imap env s).
Proof. unfold reconnect_imap, connect_imap. avoids_auto. Qed.

Lemma avoids_ensure_mailbox s mailbox : avoids p (ensure_mailbox env s mailbox).
Proof. unfold ensure_mailbox. avoids_auto. Qed.

Lemma avoids_close_both : avoids p (close_both env).
Proof. unfold close_both. avoids_auto. Qed.

Lemma avoids_append_attempts dst_mailbox msg n :
  p (Append dst_mailbox msg) = false ->
  avoids p (append_attempts env dst_mailbox msg n).
Proof.
  intros Ha. induction n as [|n IH]; simpl.
  - apply avoids_ret.
  - apply avoids_try_except; [avoids_auto|]. intros _.
    apply avoids_bind; [apply avoids_reconnect_imap|]. intros _.
    apply avoids_bind; [apply avoids_ensure_mailbox|]. intros _. exact IH.
Qed.

Lemma avoids_fetch_attempts src_mailbox batch_uids n :
  p (Fetch batch_uids) = false ->
  avoids p (fetch_attempts env src_mailbox batch_uids n).
Proof.
  intros Hf. induction n as [|n IH]; simpl.
  - apply avoids_ret.
  - apply avoids_try_except; [avoids_auto|]. intros _.
    apply avoids_bind; [apply avoids_reconnect_imap|]. intros _.
    apply avoids_bind; [avoids_auto|]. intros _. exact IH.
Qed.

End SessionCalls.

(** ** Actions that leave the ledger alone *)

Lemma keeps_db_ret {A} (a : A) : keeps_db (ret a).
Proof. intros st r st' H. now inversion H. Qed.

Lemma keeps_db_raise {A} (e : exn) : keeps_db (@raise A e).
Proof. intros st r st' H. now inversion H. Qed.

Lemma keeps_db_bind {A B} (m : M A) (k : A -> M B) :
  keeps_db m -> (forall a, keeps_db (k a)) -> keeps_db (bind m k).
Proof.
  intros Hm Hk st r st' H. unfold bind in H.
  destruct (m st) as [[a|e] st1] eqn:E.
  - rewrite (Hk a _ _ _ H). exact (Hm _ _ _ E).
  - inversion H; subst. exact (Hm _ _ _ E).
Qed.

Lemma keeps_db_try_except {A} (m : M A) catches (h : exn -> M A) :
  keeps_db m -> (forall e, keeps_db (h e)) -> keeps_db (try_except m catches h).
Proof.
  intros Hm Hh st r st' H. unfold try_except in H.
  destruct (m st) as [[a|e] st1] eqn:E.
  - inversion H; subst. exact (Hm _ _ _ E).
  - destruct (catches e).
    + rewrite (Hh e _ _ _ H). exact (Hm _ _ _ E).
    + inversion H; subst. exact (Hm _ _ _ E).
Qed.

Lemma keeps_db_try_finally {A} (m : M A) (f : M unit) :
  keeps_db m -> keeps_db f -> keeps_db (try_finally m f).
Proof.
  intros Hm Hf st r st' H. unfold try_finally in H.
  destruct (m st) as [r1 st1] eqn:E.
  destruct (f st1) as [[u|e] st2] eqn:E2; inversion H; subst;
    rewrite (Hf _ _ _ E2); exact (Hm _ _ _ E).
Qed.

Lemma keeps_db_for_each {A} (l : list A) (body : A -> M unit) :
  (forall x, keeps_db (body x)) -> keeps_db (for_each l body).
Proof.
  intros Hb. induction l as [|x l IH]; simpl.
  - apply keeps_db_ret.
  - apply keeps_db_bind; [apply Hb | intros _; exact IH].
Qed.

Lemma keeps_db_perform env c : keeps_db (perform env c).
Proof.
  intros st r st' H. unfold perform in H.
  destruct (failure env (log st) c); now inversion H.
Qed.

Lemma keeps_db_ask {A} env c (answer : list event -> A) : keeps_db (ask env c answer).
Proof.
  intros st r st' H. unfold ask in H.
  destruct (failure env (log st) c); now inversion H.
Qed.

Lemma keeps_db_emit c : keeps_db (emit c).
Proof. intros st r st' H. now inversion H. Qed.

Lemma keeps_db_read_db {A} (f : connection -> A) : keeps_db (read_db f).
Proof. intros st r st' H. now inversion H. Qed.

Ltac keeps_db_step :=
  match goal with
  | H : keeps_db ?m |- keeps_db ?m => exact H
  | |- keeps_db (bind _ _) => apply keeps_db_bind; [|intro]
  | |- keeps_db (try_except _ _ _) => apply keeps_db_try_except; [|intro]
  | |- keeps_db (try_finally _ _) => apply keeps_db_try_finally
  | |- keeps_db (for_each _ _) => apply keeps_db_for_each; intro
  | |- keeps_db (ret _) => apply keeps_db_ret
  | |- keeps_db (raise _) => apply keeps_db_raise
  | |- keeps_db (perform _ _) => apply keeps_db_perform
  | |- keeps_db (ask _ _ _) => apply keeps_db_ask
  | |- keeps_db (emit _) => apply keeps_db_emit
  | |- keeps_db (read_db _) => apply keeps_db_read_db
  | |- keeps_db (if ?b then _ else _) => destruct b
  | |- keeps_db (match ?x with _ => _ end) => destruct x
  end.

Ltac keeps_db_auto := repeat keeps_db_step.

Lemma keeps_db_connect_imap env s : keeps_db (connect_imap env s).
Proof. unfold connect_imap. keeps_db_auto. Qed.

Lemma keeps_db_reconnect_imap env s : keeps_db (reconnect_imap env s).
Proof. unfold reconnect_imap, connect_imap. keeps_db_auto. Qed.

Lemma keeps_db_ensure_mailbox env s mailbox : keeps_db (ensure_mailbox env s mailbox).
Proof. unfold ensure_mailbox. keeps_db_auto. Qed.

Lemma keeps_db_close_both env : keeps_db (close_both env).
Proof. unfold close_both. keeps_db_auto. Qed.

Lemma keeps_db_append_attempts env dst_mailbox msg n :
  keeps_db (append_attempts env dst_mailbox msg n).
Proof.
  induction n as [|n IH]; simpl.
  - apply keeps_db_ret.
  - apply keeps_db_try_except; [keeps_db_auto|]. intros _.
    apply keeps_db_bind; [apply keeps_db_reconnect_imap|]. intros _.
    apply keeps_db_bind; [apply keeps_db_ensure_mailbox|]. intros _. exact IH.
Qed.

Lemma keeps_db_fetch_attempts env src_mailbox batch_uids n :
  keeps_db (fetch_attempts env src_mailbox batch_uids n).
Proof.
  induction n as [|n IH]; simpl.
  - apply keeps_db_ret.
  - apply keeps_db_try_except; [keeps_db_auto|]. intros _.
    apply keeps_db_bind; [apply keeps_db_reconnect_imap|]. intros _.
    apply keeps_db_bind; [keeps_db_auto|]. intros _. exact IH.
Qed.

Lemma keeps_db_transfer_message env dst_mailbox archive_mailbox dry_run uid raw :
  keeps_db (transfer_message env dst_mailbox archive_mailbox dry_run uid raw).
Proof.
  unfold transfer_message. destruct dry_run; cbn [negb].
  - apply keeps_db_ret.
  - apply keeps_db_bind; [apply keeps_db_append_attempts|]. intros _.
    keeps_db_auto.
Qed.

(** ** The ledger check *)

Lemma truthy_already_transferred conn m uid :
  truthy (already_transferred_by_src conn m uid) = false ->
  already_transferred_by_src conn m uid = None.
Proof.
  unfold already_transferred_by_src.
  destruct (filter _ _); [reflexivity | discriminate].
Qed.

(** ** One message *)

Lemma log_extension_unique (old new1 new2 : list event) :
  new1 ++ old = new2 ++ old -> new1 = new2.
Proof. apply app_inv_tail. Qed.

Lemma no_events_added (old new : list event) : old = new ++ old -> new = [].
Proof.
  intros H. symmetry. apply (app_inv_tail old). simpl. exact H.
Qed.

(** C5.  In a run that is not a dry run, when the move of a message to the
    archive mailbox fails, the iteration for that key ends without raising
    and without a ledger write: the ledger is the one the iteration started
    with, and it still has no record for the key, so the skip check of a
    later run lets the key through to the append and the move. *)
Theorem failed_move_leaves_ledger :
  forall env src_mailbox dst_mailbox archive_mailbox fetch_data uid e st r st' new,
    process_uid env src_mailbox dst_mailbox archive_mailbox false fetch_data uid st
      = (r, st') ->
    log st' = new ++ log st ->
    In (Failed (Move uid archive_mailbox) e) new ->
    r = Ok tt /\
    db st' = db st /\
    already_transferred_by_src (db st') src_mailbox uid = None.
Proof.
  intros env src dst arch fd uid e st r st' new Hrun Hlog Hin.
  unfold process_uid, bind at 1, read_db in Hrun.
  destruct (truthy (already_transferred_by_src (db st) src uid)) eqn:Hseen.
  { inversion Hrun; subst. apply no_events_added in Hlog. subst. destruct Hin. }
  destruct (fetch_get fd uid) as [raw|].
  2:{ inversion Hrun; subst. apply no_events_added in Hlog. subst. destruct Hin. }
  unfold transfer_message in Hrun. cbn [negb] in Hrun.
  unfold bind at 1 2 in Hrun.
  destruct (append_attempts env dst raw 3 st) as [[[]|ea] sa] eqn:Happ.
  - pose proof (keeps_db_append_attempts _ _ _ _ _ _ _ Happ) as Hdb.
    assert (Hp : forall c, is_session c = true -> is_move c = false)
      by (intros []; simpl; congruence).
    destruct (avoids_append_attempts env is_move Hp dst raw 3 eq_refl _ _ _ Happ)
      as (n1 & L1 & F1).
    unfold try_except, bind, perform, ret in Hrun.
    destruct (failure env (log sa) (Move uid arch)) as [e'|] eqn:Hmove;
      cbn [any_exception] in Hrun.
    + inversion Hrun; subst. cbn [db with_log].
      split; [reflexivity|]. split; [exact Hdb|].
      rewrite Hdb. apply truthy_already_transferred, Hseen.
    + unfold write_db in Hrun. inversion Hrun; subst. exfalso.
      cbn [log with_log] in Hlog. rewrite L1 in Hlog.
      apply (log_extension_unique (log st) (Done (Move uid arch) :: n1)) in Hlog.
      subst new. destruct Hin as [Hin|Hin]; [discriminate|].
      rewrite Forall_forall in F1. specialize (F1 _ Hin). discriminate.
  - inversion Hrun; subst. exfalso.
    assert (Hp : forall c, is_session c = true -> is_move c = false)
      by (intros []; simpl; congruence).
    destruct (avoids_append_attempts env is_move Hp dst raw 3 eq_refl _ _ _ Happ)
      as (n1 & L1 & F1).
    rewrite L1 in Hlog. apply log_extension_unique in Hlog. subst new.
    rewrite Forall_forall in F1. specialize (F1 _ Hin). discriminate.
Qed.

(** The theorem at work: key 7 is appended, its move fails, and the empty
    ledger stays empty. *)
Lemma failed_move_leaves_ledger_witness :
  db (snd (process_uid (scripted move_fails ["INBOX"] [7]) "INBOX" "INBOX"
             "Migrated/INBOX" false [(7, sample_message)] 7 fresh)) = db fresh /\
  already_transferred_by_src (open_db []) "INBOX" 7 = None.
Proof.
  refine (proj2 (failed_move_leaves_ledger
                   (scripted move_fails ["INBOX"] [7]) "INBOX" "INBOX"
                   "Migrated/INBOX" [(7, sample_message)] 7 OtherException fresh
                   (Ok tt)
                   {| db := open_db [];
                      log := [Failed (Move 7 "Migrated/INBOX") OtherException;
                              Done (Append "INBOX" sample_message)] |}
                   [Failed (Move 7 "Migrated/INBOX") OtherException;
                    Done (Append "INBOX" sample_message)]
                   _ _ _)).
  - reflexivity.
  - reflexivity.
  - simpl. left. reflexivity.
Defined.

(** ** Dry run *)

Lemma transfer_not_session c : is_session c = true -> is_transfer c = false.
Proof. intros H. destruct c; try discriminate H; reflexivity. Qed.

Lemma avoids_safe_search_from env p criteria max_retries base_delay n attempt :
  (forall c, is_session c = true -> p c = false) ->
  p (Search criteria) = false ->
  avoids p (safe_search_from env criteria max_retries base_delay n attempt).
Proof.
  intros Hp Hs. revert attempt. induction n as [|n IH]; intros attempt; simpl.
  - apply avoids_ret.
  - apply avoids_try_except; [avoids_auto|]. intros e.
    destruct (attempt =? max_retries); [apply avoids_raise|].
    apply avoids_bind; [apply avoids_emit, Hp; reflexivity|]. intros _. apply IH.
Qed.

(** The calls of one message avoid [p] when the session calls do and, in
    a run that is not a dry run, the append and the move do. *)
Lemma avoids_transfer_message env p dst_mailbox archive_mailbox dry_run uid raw :
  (forall c, is_session c = true -> p c = false) ->
  (dry_run = false -> forall c, is_transfer c = true -> p c = false) ->
  avoids p (transfer_message env dst_mailbox archive_mailbox dry_run uid raw).
Proof.
  intros Hp Ht. unfold transfer_message. destruct dry_run; cbn [negb].
  - apply avoids_ret.
  - apply avoids_bind.
    + apply avoids_append_attempts; [exact Hp | now apply Ht].
    + intros _. apply avoids_try_except; [|intros _; apply avoids_ret].
      apply avoids_bind; [|intros _; apply avoids_ret].
      apply avoids_perform. now apply Ht.
Qed.

Lemma avoids_process_uid env p src_mailbox dst_mailbox archive_mailbox dry_run
    fetch_data uid :
  (forall c, is_session c = true -> p c = false) ->
  (dry_run = false -> forall c, is_transfer c = true -> p c = false) ->
  avoids p
    (process_uid env src_mailbox dst_mailbox archive_mailbox dry_run fetch_data uid).
Proof.
  intros Hp Ht. unfold process_uid.
  apply avoids_bind; [apply avoids_read_db|]. intros seen.
  destruct (truthy seen); [apply avoids_ret|].
  destruct (fetch_get fetch_data uid) as [raw|]; [|apply avoids_ret].
  apply avoids_bind; [now apply avoids_transfer_message|].
  intros reached. destruct reached; [apply avoids_write_db | apply avoids_ret].
Qed.

Lemma avoids_process_batch env p src_mailbox dst_mailbox archive_mailbox dry_run
    sleep_between batch_uids :
  (forall c, is_session c = true -> p c = false) ->
  (dry_run = false -> forall c, is_transfer c = true -> p c = false) ->
  p (Fetch batch_uids) = false ->
  avoids p
    (process_batch env src_mailbox dst_mailbox archive_mailbox dry_run sleep_between
       batch_uids).
Proof.
  intros Hp Ht Hf. unfold process_batch.
  apply avoids_bind; [now apply avoids_fetch_attempts|].
  intros [d|]; [|apply avoids_ret].
  apply avoids_bind.
  - apply avoids_for_each. intros uid. now apply avoids_process_uid.
  - intros _. destruct (0 <? sleep_between); [|apply avoids_ret].
    apply avoids_emit, Hp. reflexivity.
Qed.

(** The pipeline of [migrate_mailbox] from the first connection on. *)
Ltac avoids_pipeline Hp Ht :=
  apply avoids_bind; [apply avoids_connect_imap, Hp|]; intros _;
  apply avoids_bind; [apply avoids_connect_imap, Hp|]; intros _;
  apply avoids_bind; [apply avoids_ensure_mailbox, Hp|];
  let ensured := fresh "ensured" in
  intros ensured; destruct (negb ensured); [apply avoids_close_both, Hp|];
  apply avoids_bind; [apply avoids_ensure_mailbox, Hp|]; intros _;
  apply avoids_bind;
    [ apply avoids_try_except;
        [ apply avoids_bind; [apply avoids_perform, Hp; reflexivity|];
          intros _; apply avoids_ret
        | intros _; apply avoids_bind;
            [apply avoids_close_both, Hp | intros _; apply avoids_ret] ]
    | ];
  let selected := fresh "selected" in
  intros selected; destruct (negb selected); [apply avoids_ret|];
  apply avoids_bind;
    [ apply avoids_try_except;
        [ apply avoids_bind; [|intros; apply avoids_ret];
          apply avoids_safe_search_from; [exact Hp | reflexivity]
        | intros _; apply avoids_bind;
            [apply avoids_close_both, Hp | intros _; apply avoids_ret] ]
    | ];
  let uids := fresh "uids" in
  intros [[uids|]|]; [| |apply avoids_ret];
    [ apply avoids_try_finally; [|apply avoids_close_both, Hp];
      apply avoids_bind;
        [ unfold batches; avoids_auto
        | intros bs; apply avoids_for_each; intros b;
          apply avoids_process_batch; [exact Hp | exact Ht | reflexivity] ]
    | apply avoids_try_finally; [apply avoids_raise | apply avoids_close_both, Hp] ].

(** The half of dry-run purity that the code has: a dry run of
    [migrate_mailbox] makes no append and no move. *)
Lemma dry_run_avoids_transfers env src_mailbox dst_mailbox batch sleep_between :
  avoids is_transfer (migrate_mailbox env src_mailbox dst_mailbox batch sleep_between true).
Proof.
  pose proof transfer_not_session as Hp.
  assert (Ht : true = false -> forall c, is_transfer c = true -> is_transfer c = false)
    by discriminate.
  unfold migrate_mailbox.
  apply avoids_bind; [apply avoids_emit; reflexivity|]. intros _.
  avoids_pipeline Hp Ht.
Qed.

(** The other half fails for every key that is fetched and not yet
    recorded: the dry run writes its ledger row. *)
Lemma dry_run_records_fetched_key env src_mailbox dst_mailbox archive_mailbox
    fetch_data uid raw st :
  truthy (already_transferred_by_src (db st) src_mailbox uid) = false ->
  fetch_get fetch_data uid = Some raw ->
  process_uid env src_mailbox dst_mailbox archive_mailbox true fetch_data uid st =
    (Ok tt,
     {| db := record_transfer (db st) src_mailbox uid dst_mailbox None
                (message_id_header env (RFC822 raw));
        log := log st |}).
Proof.
  intros Hseen Hget. unfold process_uid, bind, read_db, transfer_message.
  rewrite Hseen, Hget. reflexivity.
Qed.

(** C1 fails on the code.  A dry run over a mailbox holding key 1 makes no
    append and no move, and yet ends with a committed ledger row for
    ("INBOX", "1"): [record_transfer] stands after the [if not dry_run]
    block, not inside it. *)
Theorem dry_run_writes_ledger :
  let env := scripted calm ["INBOX"] [1] in
  let (r, st') := migrate_mailbox env "INBOX" "INBOX" 50 2 true fresh in
  r = Ok tt /\
  count (attempted is_transfer) (log st') = 0%nat /\
  committed (db st') =
    [{| col_id := 1; col_src_mailbox := "INBOX"; col_src_uid := "1";
        col_dst_mailbox := Some "INBOX"; col_dst_uid := None;
        col_message_id := None |}] /\
  already_transferred_by_src (db st') "INBOX" 1 = Some [1] /\
  db st' <> db fresh.
Proof.
  vm_compute. repeat split. discriminate.
Qed.

(** ** Append exhaustion *)

(** C3 fails on the code.  When all three appends of key 5 abort, the loop
    ends without raising; the move to the archive is made all the same and,
    as it succeeds, key 5 is recorded in the ledger although no append
    succeeded. *)
Theorem exhausted_append_still_moves_and_records :
  let env := scripted append_aborts ["INBOX"] [5] in
  let (r, st') := migrate_mailbox env "INBOX" "INBOX" 50 2 false fresh in
  r = Ok tt /\
  count (aborted is_append) (log st') = 3%nat /\
  count (succeeded is_append) (log st') = 0%nat /\
  In (Done (Move 5 "Migrated/INBOX")) (log st') /\
  already_transferred_by_src (db st') "INBOX" 5 = Some [1].
Proof.
  vm_compute. repeat split. right. right. right. left. reflexivity.
Qed.

(** ** Counting lemmas *)

Lemma count_app f (a b : list event) : count f (a ++ b) = (count f a + count f b)%nat.
Proof. unfold count. now rewrite filter_app, length_app. Qed.

Lemma count_attempted_avoided p (l : list event) :
  Forall (fun ev => p (call_of ev) = false) l -> count (attempted p) l = 0%nat.
Proof.
  unfold count, attempted. induction 1 as [|ev l Hev _ IH]; simpl; [reflexivity|].
  now rewrite Hev.
Qed.

Lemma count_aborted_le_attempted p (l : list event) :
  (count (aborted p) l <= count (attempted p) l)%nat.
Proof.
  unfold count, attempted. induction l as [|ev l IH]; simpl; [lia|].
  destruct ev as [c|c [|]]; simpl; destruct (p c); simpl; lia.
Qed.

Lemma count_aborted_avoided p (l : list event) :
  Forall (fun ev => p (call_of ev) = false) l -> count (aborted p) l = 0%nat.
Proof.
  intros H. pose proof (count_aborted_le_attempted p l).
  rewrite (count_attempted_avoided p l H) in *. lia.
Qed.

Lemma avoided_weaken (p q : call -> bool) (l : list event) :
  (forall c, p c = false -> q c = false) ->
  Forall (fun ev => p (call_of ev) = false) l ->
  Forall (fun ev => q (call_of ev) = false) l.
Proof. intros Hpq. apply Forall_impl. intros ev. apply Hpq. Qed.

(** ** The fetch loop *)

Lemma avoided_session_transfer l :
  Forall (fun ev => carries_mail (call_of ev) = false) l ->
  Forall (fun ev => is_transfer (call_of ev) = false) l.
Proof.
  apply avoided_weaken. intros c H. apply transfer_not_session.
  unfold carries_mail in H. now destruct (is_session c).
Qed.

Lemma avoided_session_fetch l :
  Forall (fun ev => carries_mail (call_of ev) = false) l ->
  Forall (fun ev => is_fetch (call_of ev) = false) l.
Proof.
  apply avoided_weaken. intros c H. unfold carries_mail in H.
  destruct c; try discriminate H; reflexivity.
Qed.

(** Read off the goal the events a state has gained over [old]. *)
Ltac events_over l old :=
  lazymatch l with
  | old => constr:(@nil event)
  | ?ev :: ?rest => let r := events_over rest old in constr:(ev :: r)
  end.

Ltac exists_new_events :=
  lazymatch goal with
  | |- exists new, ?l = new ++ ?old /\ _ =>
      let n := events_over l old in exists n
  end.

(** What follows an aborted fetch: the source session is reopened and the
    mailbox selected again.  Only session calls are made; either the select
    succeeds and is the newest event, or the failed call is. *)
Lemma reselect_outcome env src_mailbox st r st' :
  (reconnect_imap env Src ;; perform env (SelectFolder Src src_mailbox)) st = (r, st') ->
  db st' = db st /\
  exists new,
    log st' = new ++ log st /\
    Forall (fun ev => carries_mail (call_of ev) = false) new /\
    ((r = Ok tt /\ hd_error new = Some (Done (SelectFolder Src src_mailbox))) \/
     (exists e c, r = Raise e /\ is_session c = true /\
                  hd_error new = Some (Failed c e))).
Proof.
  unfold reconnect_imap, connect_imap, bind, try_except, perform, emit, ret.
  cbn [log with_log db fst snd any_exception].
  intros H.
  repeat match type of H with
         | context [failure env ?h ?c] =>
             let F := fresh "F" in
             destruct (failure env h c) eqn:F; cbn [log with_log db] in H
         end;
    inversion H; subst; clear H; cbn [db with_log];
    (split; [reflexivity|]);
    cbn [log with_log]; exists_new_events; (split; [reflexivity|]);
    (split; [repeat (apply Forall_cons; [reflexivity|]); apply Forall_nil|]);
    first [ left; split; reflexivity
          | right; eexists _, _; split; [reflexivity|];
            split; [|reflexivity]; reflexivity ].
Qed.

Lemma bind_assoc {A B C} (m : M A) (f : A -> M B) (g : B -> M C) st :
  bind (bind m f) g st = bind m (fun a => bind (f a) g) st.
Proof. unfold bind. destruct (m st) as [[a|e] st1]; reflexivity. Qed.

Lemma hd_error_app {A} (a b : list A) x :
  hd_error a = Some x -> hd_error (a ++ b) = Some x.
Proof. destruct a; [discriminate | intros H; exact H]. Qed.

(** The loop around [src.fetch] with [n] attempts left: it leaves the
    ledger alone, makes no append and no move and at most [n] fetches.  A
    fetch result means that fewer than [n] fetches aborted; an exception is
    that of the newest call, which is a session call unless fewer than [n]
    fetches aborted. *)
Lemma fetch_attempts_outcome env src_mailbox batch_uids :
  forall n st r st',
    fetch_attempts env src_mailbox batch_uids n st = (r, st') ->
    db st' = db st /\
    exists new,
      log st' = new ++ log st /\
      Forall (fun ev => is_transfer (call_of ev) = false) new /\
      (count (attempted is_fetch) new <= n)%nat /\
      match r with
      | Ok (Some _) => (count (aborted is_fetch) new < n)%nat
      | Ok None => True
      | Raise e =>
          exists c, hd_error new = Some (Failed c e) /\
                    (is_session c = true \/ (count (aborted is_fetch) new < n)%nat)
      end.
Proof.
  induction n as [|n IH]; intros st r st' H.
  - inversion H; subst. split; [reflexivity|]. exists [].
    split; [reflexivity|]. split; [constructor|]. split; [apply Nat.le_refl | exact I].
  - cbn [fetch_attempts] in H.
    unfold try_except at 1, bind at 1, ask at 1, ret at 1 in H.
    destruct (failure env (log st) (Fetch batch_uids)) as [[|]|] eqn:F;
      cbn [is_abort] in H.
    + (* the fetch aborted *)
      set (st1 := with_log st (Failed (Fetch batch_uids) IMAP4_abort)) in H.
      change (bind (reconnect_imap env Src)
                (fun _ => bind (perform env (SelectFolder Src src_mailbox))
                            (fun _ => fetch_attempts env src_mailbox batch_uids n))
                st1 = (r, st')) in H.
      rewrite <- (bind_assoc (reconnect_imap env Src)
                    (fun _ => perform env (SelectFolder Src src_mailbox))) in H.
      unfold bind at 1 in H.
      destruct ((reconnect_imap env Src;; perform env (SelectFolder Src src_mailbox)) st1)
        as [[[]|e] s2] eqn:E;
        destruct (reselect_outcome _ _ _ _ _ E) as (Hdb2 & n2 & L2 & F2 & O2).
      * destruct (IH _ _ _ H) as (Hdb3 & n3 & L3 & F3 & C3 & O3).
        split; [now rewrite Hdb3, Hdb2|].
        exists (n3 ++ n2 ++ [Failed (Fetch batch_uids) IMAP4_abort]).
        split; [rewrite L3, L2; unfold st1; cbn [log with_log];
                now rewrite <- !app_assoc|].
        split.
        { apply Forall_app. split; [exact F3|]. apply Forall_app.
          split; [now apply avoided_session_transfer | repeat constructor]. }
        rewrite !count_app.
        rewrite (count_attempted_avoided is_fetch n2 (avoided_session_fetch _ F2)).
        rewrite (count_aborted_avoided is_fetch n2 (avoided_session_fetch _ F2)).
        change (count (attempted is_fetch) [Failed (Fetch batch_uids) IMAP4_abort])
          with 1%nat.
        change (count (aborted is_fetch) [Failed (Fetch batch_uids) IMAP4_abort])
          with 1%nat.
        split; [lia|].
        destruct r as [[d|]|e]; [lia | exact I |].
        destruct O3 as (c & Hc & Hor). exists c. split.
        { now apply hd_error_app. }
        destruct Hor as [Hs|Hlt]; [left; exact Hs | right; lia].
      * inversion H; subst.
        split; [exact Hdb2|].
        exists (n2 ++ [Failed (Fetch batch_uids) IMAP4_abort]).
        split; [rewrite L2; unfold st1; cbn [log with_log];
                now rewrite <- !app_assoc|].
        split.
        { apply Forall_app.
          split; [now apply avoided_session_transfer | repeat constructor]. }
        rewrite !count_app.
        rewrite (count_attempted_avoided is_fetch n2 (avoided_session_fetch _ F2)).
        change (count (attempted is_fetch) [Failed (Fetch batch_uids) IMAP4_abort])
          with 1%nat.
        split; [lia|].
        destruct O2 as [[Habs _]|(e' & c & He & Hc & Hhd)]; [discriminate|].
        inversion He; subst e'. exists c.
        split; [now apply hd_error_app | left; exact Hc].
    + (* the fetch failed otherwise *)
      inversion H; subst. split; [reflexivity|].
      exists [Failed (Fetch batch_uids) OtherException].
      split; [reflexivity|]. split; [repeat constructor|].
      split; [cbn; lia|].
      exists (Fetch batch_uids). split; [reflexivity|]. right. cbn. lia.
    + (* the fetch succeeded *)
      inversion H; subst. split; [reflexivity|].
      exists [Done (Fetch batch_uids)].
      split; [reflexivity|]. split; [repeat constructor|].
      split; [cbn; lia | cbn; lia].
Qed.

Lemma fetch_not_session c : is_session c = true -> is_fetch c = false.
Proof. intros H. destruct c; try discriminate H; reflexivity. Qed.

Lemma fetch_not_transfer c : is_transfer c = true -> is_fetch c = false.
Proof. intros H. destruct c; try discriminate H; reflexivity. Qed.




(** ** Actions that end normally *)

Lemma returns_ret {A} (P : A -> Prop) a : P a -> returns P (ret a).
Proof. intros H st. now exists a, st. Qed.

Lemma returns_bind {A B} (P : A -> Prop) (Q : B -> Prop) (m : M A) (k : A -> M B) :
  returns P m -> (forall a, P a -> returns Q (k a)) -> returns Q (bind m k).
Proof.
  intros Hm Hk st. destruct (Hm st) as (a & st1 & E & Pa).
  destruct (Hk a Pa st1) as (b & st2 & E2 & Qb).
  exists b, st2. unfold bind. rewrite E. now split.
Qed.

Lemma returns_weaken {A} (P Q : A -> Prop) (m : M A) :
  (forall a, P a -> Q a) -> returns P m -> returns Q m.
Proof.
  intros H Hm st. destruct (Hm st) as (a & st1 & E & Pa). exists a, st1. auto.
Qed.

Lemma returns_emit c : returns (fun _ => True) (emit c).
Proof. intros st. now eexists tt, _. Qed.

Lemma returns_perform env c :
  (forall h, failure env h c = None) -> returns (fun _ => True) (perform env c).
Proof.
  intros H st. exists tt. eexists. unfold perform. rewrite H. now split.
Qed.

Lemma always_raises_perform_bind {B} env c (k : unit -> M B) :
  (forall h, failure env h c <> None) -> always_raises (bind (perform env c) k).
Proof.
  intros H st. unfold bind, perform.
  destruct (failure env (log st) c) as [e|] eqn:F; [|now apply H in F].
  now eexists _, _.
Qed.

Lemma returns_try_except_total {A} (P : A -> Prop) (m : M A) catches h :
  returns P m -> returns P (try_except m catches h).
Proof.
  intros Hm st. destruct (Hm st) as (a & st1 & E & Pa).
  exists a, st1. unfold try_except. rewrite E. now split.
Qed.

Lemma returns_try_except_caught {A} (P : A -> Prop) (m : M A) h :
  always_raises m -> (forall e, returns P (h e)) ->
  returns P (try_except m any_exception h).
Proof.
  intros Hm Hh st. destruct (Hm st) as (e & st1 & E).
  destruct (Hh e st1) as (a & st2 & E2 & Pa).
  exists a, st2. unfold try_except. rewrite E. now split.
Qed.

Lemma ensure_mailbox_returns env s mailbox :
  returns (fun _ => True) (ensure_mailbox env s mailbox).
Proof.
  intros st. unfold ensure_mailbox, try_except, bind, perform, ret.
  destruct (failure env (log st) (SelectFolder s mailbox)); cbn [any_exception];
    [|now eexists _, _].
  cbn [log with_log].
  destruct (failure env _ (CreateFolder s mailbox)); now eexists _, _.
Qed.

Lemma ensure_mailbox_refused env s mailbox :
  (forall h, failure env h (SelectFolder s mailbox) <> None) ->
  (forall h, failure env h (CreateFolder s mailbox) <> None) ->
  returns (fun b => b = false) (ensure_mailbox env s mailbox).
Proof.
  intros Hs Hc st. unfold ensure_mailbox, try_except, bind, perform, ret.
  destruct (failure env (log st) (SelectFolder s mailbox)) eqn:F;
    [|now apply Hs in F].
  cbn [any_exception log with_log].
  destruct (failure env _ (CreateFolder s mailbox)) eqn:F2; [|now apply Hc in F2].
  now eexists _, _.
Qed.

Section SessionsOpen.

Variable env : endpoints.
Hypothesis connect_ok : forall h s, failure env h (Connect s) = None.
Hypothesis login_ok : forall h s, failure env h (Login s) = None.
Hypothesis logout_ok : forall h s, failure env h (Logout s) = None.

Lemma connect_imap_returns s : returns (fun _ => True) (connect_imap env s).
Proof.
  unfold connect_imap.
  eapply returns_bind; [apply returns_perform; intros h; apply connect_ok|].
  intros _ _. apply returns_perform. intros h. apply login_ok.
Qed.

Lemma close_both_returns : returns (fun _ => True) (close_both env).
Proof.
  unfold close_both.
  eapply returns_bind; [apply returns_perform; intros h; apply logout_ok|].
  intros _ _. apply returns_perform. intros h. apply logout_ok.
Qed.

Lemma close_then {A} (a : A) : returns (fun x => x = a) (close_both env ;; ret a).
Proof.
  eapply returns_bind; [apply close_both_returns|].
  intros _ _. now apply returns_ret.
Qed.

End SessionsOpen.

(** When every search fails, the loop of [safe_search] whose last iteration
    is numbered [max_retries] ends with an exception. *)
Lemma safe_search_from_all_fail env criteria max_retries base_delay :
  (forall h, failure env h (Search criteria) <> None) ->
  forall remaining attempt,
    attempt + Z.of_nat remaining = max_retries ->
    always_raises
      (safe_search_from env criteria max_retries base_delay (S remaining) attempt).
Proof.
  intros Hfail. induction remaining as [|n IH]; intros attempt Hlast st.
  - assert (attempt = max_retries) as -> by lia.
    simpl. unfold try_except, bind, ask, ret, raise.
    destruct (failure env (log st) (Search criteria)) as [[|]|] eqn:F;
      [| |now apply Hfail in F]; simpl.
    + rewrite Z.eqb_refl. now eexists _, _.
    + now eexists _, _.
  - cbn [safe_search_from]. unfold try_except at 1, bind at 1 2, ask at 1, ret at 1.
    destruct (failure env (log st) (Search criteria)) as [[|]|] eqn:F;
      [| |now apply Hfail in F]; cbn [is_abort].
    + assert (Hne : (attempt =? max_retries) = false) by (apply Z.eqb_neq; lia).
      rewrite Hne. unfold emit at 1.
      apply IH. lia.
    + now eexists _, _.
Qed.

Lemma always_raises_bind {A B} (m : M A) (k : A -> M B) :
  always_raises m -> always_raises (bind m k).
Proof.
  intros Hm st. destruct (Hm st) as (e & st1 & E).
  exists e, st1. unfold bind. now rewrite E.
Qed.

Lemma returns_try_except_handled {A} (P : A -> Prop) (m : M A) h :
  (forall st a st', m st = (Ok a, st') -> P a) ->
  (forall e, returns P (h e)) ->
  returns P (try_except m any_exception h).
Proof.
  intros Hm Hh st. unfold try_except.
  destruct (m st) as [[a|e] st1] eqn:E.
  - exists a, st1. split; [reflexivity | exact (Hm _ _ _ E)].
  - cbn [any_exception]. apply Hh.
Qed.

(** ** Failures that [migrate_mailbox] handles *)

(** With sessions that open and close, a mailbox whose destination can be
    neither selected nor created, whose source mailbox cannot be selected,
    or whose search always fails is given up without an exception. *)
Lemma handled_failures_return env src_mailbox dst_mailbox batch sleep_between dry_run :
  (forall h s, failure env h (Connect s) = None) ->
  (forall h s, failure env h (Login s) = None) ->
  (forall h s, failure env h (Logout s) = None) ->
  ((forall h, failure env h (SelectFolder Dst dst_mailbox) <> None) /\
   (forall h, failure env h (CreateFolder Dst dst_mailbox) <> None)) \/
  (forall h, failure env h (SelectFolder Src src_mailbox) <> None) \/
  (forall h, failure env h (Search "ALL") <> None) ->
  returns (fun _ => True)
    (migrate_mailbox env src_mailbox dst_mailbox batch sleep_between dry_run).
Proof.
  intros Hc Hl Hlo Hcase. unfold migrate_mailbox.
  eapply returns_bind; [apply returns_emit|]. intros _ _.
  eapply returns_bind; [now apply connect_imap_returns|]. intros _ _.
  eapply returns_bind; [now apply connect_imap_returns|]. intros _ _.
  destruct Hcase as [[Hs Hcr]|Hcase].
  { eapply returns_bind; [now apply ensure_mailbox_refused|].
    intros b ->. cbn [negb]. now apply close_both_returns. }
  eapply returns_bind; [apply ensure_mailbox_returns|]. intros ensured _.
  destruct (negb ensured); [now apply close_both_returns|].
  eapply returns_bind; [apply ensure_mailbox_returns|]. intros _ _.
  destruct Hcase as [Hsel|Hsearch].
  { eapply returns_bind with (P := fun selected => selected = false).
    - apply returns_try_except_caught.
      + now apply always_raises_perform_bind.
      + intros _. now apply close_then.
    - intros selected ->. cbn [negb]. now apply returns_ret. }
  eapply returns_bind with (P := fun _ => True).
  { apply returns_try_except_handled; [trivial|].
    intros _. eapply returns_weaken; [|now apply (close_then env Hlo false)]. trivial. }
  intros selected _. destruct (negb selected); [now apply returns_ret|].
  eapply returns_bind with (P := fun searched => searched = None).
  { apply returns_try_except_caught.
    - apply always_raises_bind. unfold safe_search.
      now apply (safe_search_from_all_fail env "ALL" 5 5 Hsearch 4 1).
    - intros _. now apply close_then. }
  intros searched ->. now apply returns_ret.
Qed.

(** ** The loop over the mailboxes *)

Lemma started_app a b : started (a ++ b) = started b ++ started a.
Proof. unfold started. now rewrite rev_app_distr, flat_map_app. Qed.

Lemma started_avoided l :
  Forall (fun ev => is_log (call_of ev) = false) l -> started l = [].
Proof.
  intros H. unfold started. apply Forall_rev in H.
  induction H as [|ev l' Hev _ IH]; [reflexivity|]. simpl. rewrite IH.
  destruct ev as [[]|]; try discriminate Hev; reflexivity.
Qed.

Lemma log_not_session c : is_session c = true -> is_log c = false.
Proof. intros H. destruct c; try discriminate H; reflexivity. Qed.

Lemma log_not_transfer c : is_transfer c = true -> is_log c = false.
Proof. intros H. destruct c; try discriminate H; reflexivity. Qed.

(** One run of [migrate_mailbox] starts exactly one pipeline, its own. *)
Lemma migrate_mailbox_started env src_mailbox dst_mailbox batch sleep_between dry_run
    st r st' :
  migrate_mailbox env src_mailbox dst_mailbox batch sleep_between dry_run st = (r, st') ->
  exists new, log st' = new ++ log st /\ started new = [src_mailbox].
Proof.
  intros H. unfold migrate_mailbox in H. unfold bind at 1, emit at 1 in H.
  pose proof log_not_session as Hp.
  assert (Ht : dry_run = false -> forall c, is_transfer c = true -> is_log c = false)
    by (intros _; exact log_not_transfer).
  match type of H with
  | ?m ?s = _ => assert (Hav : avoids is_log m) by avoids_pipeline Hp Ht
  end.
  destruct (Hav _ _ _ H) as (n & L & F).
  exists (n ++ [Done (LogMigrating src_mailbox dst_mailbox)]). split.
  - rewrite L. cbn [log with_log]. now rewrite <- app_assoc.
  - rewrite started_app, (started_avoided _ F). reflexivity.
Qed.

(** The loop of [main] starts the pipelines of the mailboxes that are not
    excluded, in the order of the listing; it stops at the first pipeline
    that raises, whose exception it passes on. *)
Lemma migrate_all_started env exclude_folders mapping dry_run :
  forall mailboxes st r st',
    migrate_all env exclude_folders mapping dry_run mailboxes st = (r, st') ->
    exists new,
      log st' = new ++ log st /\
      match r with
      | Ok _ => started new = to_migrate exclude_folders mailboxes
      | Raise e =>
          exists before m after st0,
            to_migrate exclude_folders mailboxes = before ++ m :: after /\
            started new = before ++ [m] /\
            fst (migrate_mailbox env m (destination_of mapping m) 50 2 dry_run st0)
              = Raise e
      end.
Proof.
  unfold migrate_all.
  induction mailboxes as [|m rest IH]; intros st r st' H.
  - inversion H; subst. exists []. split; reflexivity.
  - cbn [for_each] in H. unfold bind at 1 in H.
    unfold to_migrate. cbn [filter]. fold (to_migrate exclude_folders rest).
    destruct (excluded exclude_folders m) eqn:Hex; cbn [negb].
    + unfold ret at 1 in H. exact (IH _ _ _ H).
    + destruct (migrate_mailbox env m (destination_of mapping m) 50 2 dry_run st)
        as [[[]|e] s1] eqn:Hm;
        destruct (migrate_mailbox_started _ _ _ _ _ _ _ _ _ Hm) as (n1 & L1 & S1).
      * destruct (IH _ _ _ H) as (n2 & L2 & O2).
        exists (n2 ++ n1). split; [now rewrite L2, L1, app_assoc|].
        rewrite started_app, S1.
        destruct r as [u|e].
        -- now rewrite O2.
        -- destruct O2 as (before & m' & after & st0 & Hsplit & Hst & Hraise).
           exists (m :: before), m', after, st0.
           split; [now rewrite Hsplit|]. split; [now rewrite Hst | exact Hraise].
      * inversion H; subst. exists n1. split; [exact L1|].
        exists [], m, (to_migrate exclude_folders rest), st.
        split; [reflexivity|]. split; [exact S1 | now rewrite Hm].
Qed.




(** ** Outcomes that do not depend on the state *)

Lemma blind_ret {A} (a : A) : blind (ret a).
Proof. intros st1 st2. reflexivity. Qed.

Lemma blind_raise {A} (e : exn) : blind (@raise A e).
Proof. intros st1 st2. reflexivity. Qed.

Lemma blind_bind {A B} (m : M A) (k : A -> M B) :
  blind m -> (forall a, blind (k a)) -> blind (bind m k).
Proof.
  intros Hm Hk st1 st2. unfold bind. specialize (Hm st1 st2).
  destruct (m st1) as [[a|e] s1], (m st2) as [[b|e'] s2]; simpl in Hm;
    try discriminate Hm.
  - inversion Hm; subst. apply Hk.
  - inversion Hm; subst. reflexivity.
Qed.

Lemma blind_try_except {A} (m : M A) catches (h : exn -> M A) :
  blind m -> (forall e, blind (h e)) -> blind (try_except m catches h).
Proof.
  intros Hm Hh st1 st2. unfold try_except. specialize (Hm st1 st2).
  destruct (m st1) as [[a|e] s1], (m st2) as [[b|e'] s2]; simpl in Hm;
    try discriminate Hm.
  - exact Hm.
  - inversion Hm; subst. destruct (catches e'); [apply Hh | reflexivity].
Qed.

Lemma blind_for_each {A} (l : list A) (body : A -> M unit) :
  (forall x, blind (body x)) -> blind (for_each l body).
Proof.
  intros Hb. induction l as [|x l IH]; simpl.
  - apply blind_ret.
  - apply blind_bind; [apply Hb | intros _; exact IH].
Qed.

Lemma blind_emit c : blind (emit c).
Proof. intros st1 st2. reflexivity. Qed.

Section HistoryFree.

Variable env : endpoints.
Hypothesis env_free : history_free env.

Lemma blind_perform c : blind (perform env c).
Proof.
  intros st1 st2. unfold perform.
  rewrite (proj1 env_free (log st1) (log st2) c).
  now destruct (failure env (log st2) c).
Qed.

Lemma blind_search criteria :
  blind (ask env (Search criteria) (fun h => search_result env h criteria)).
Proof.
  intros st1 st2. unfold ask.
  rewrite (proj1 env_free (log st1) (log st2)).
  rewrite (proj1 (proj2 env_free) (log st1) (log st2)).
  now destruct (failure env (log st2) _).
Qed.

Lemma blind_fetch uids :
  blind (ask env (Fetch uids) (fun h => fetch_result env h uids)).
Proof.
  intros st1 st2. unfold ask.
  rewrite (proj1 env_free (log st1) (log st2)).
  rewrite (proj2 (proj2 env_free) (log st1) (log st2)).
  now destruct (failure env (log st2) _).
Qed.

Ltac blind_step :=
  match goal with
  | H : blind ?m |- blind ?m => exact H
  | |- blind (bind _ _) => apply blind_bind; [|intro]
  | |- blind (try_except _ _ _) => apply blind_try_except; [|intro]
  | |- blind (for_each _ _) => apply blind_for_each; intro
  | |- blind (ret _) => apply blind_ret
  | |- blind (raise _) => apply blind_raise
  | |- blind (perform _ _) => apply blind_perform
  | |- blind (ask _ (Search _) _) => apply blind_search
  | |- blind (ask _ (Fetch _) _) => apply blind_fetch
  | |- blind (emit _) => apply blind_emit
  | |- blind (if ?b then _ else _) => destruct b
  | |- blind (match ?x with _ => _ end) => destruct x
  end.

Ltac blind_auto := repeat blind_step.

Lemma blind_connect_imap s : blind (connect_imap env s).
Proof. unfold connect_imap. blind_auto. Qed.

Lemma blind_reconnect_imap s : blind (reconnect_imap env s).
Proof. unfold reconnect_imap, connect_imap. blind_auto. Qed.

Lemma blind_ensure_mailbox s mailbox : blind (ensure_mailbox env s mailbox).
Proof. unfold ensure_mailbox. blind_auto. Qed.

Lemma blind_close_both : blind (close_both env).
Proof. unfold close_both. blind_auto. Qed.

Lemma blind_safe_search_from criteria max_retries base_delay n attempt :
  blind (safe_search_from env criteria max_retries base_delay n attempt).
Proof.
  revert attempt. induction n as [|n IH]; intros attempt; simpl.
  - apply blind_ret.
  - apply blind_try_except; [blind_auto|]. intros e.
    destruct (attempt =? max_retries); [apply blind_raise|].
    apply blind_bind; [apply blind_emit | intros _; apply IH].
Qed.

Lemma blind_fetch_attempts src_mailbox batch_uids n :
  blind (fetch_attempts env src_mailbox batch_uids n).
Proof.
  induction n as [|n IH]; simpl.
  - apply blind_ret.
  - apply blind_try_except; [blind_auto|]. intros _.
    apply blind_bind; [apply blind_reconnect_imap|]. intros _.
    apply blind_bind; [apply blind_perform | intros _; exact IH].
Qed.

Lemma blind_append_attempts dst_mailbox msg n :
  blind (append_attempts env dst_mailbox msg n).
Proof.
  induction n as [|n IH]; simpl.
  - apply blind_ret.
  - apply blind_try_except; [blind_auto|]. intros _.
    apply blind_bind; [apply blind_reconnect_imap|]. intros _.
    apply blind_bind; [apply blind_ensure_mailbox | intros _; exact IH].
Qed.

Lemma blind_transfer_message dst_mailbox archive_mailbox dry_run uid raw :
  blind (transfer_message env dst_mailbox archive_mailbox dry_run uid raw).
Proof.
  unfold transfer_message. destruct dry_run; cbn [negb].
  - apply blind_ret.
  - apply blind_bind; [apply blind_append_attempts|]. intros _. blind_auto.
Qed.

End HistoryFree.

Lemma keeps_db_safe_search_from env criteria max_retries base_delay n attempt :
  keeps_db (safe_search_from env criteria max_retries base_delay n attempt).
Proof.
  revert attempt. induction n as [|n IH]; intros attempt; simpl.
  - apply keeps_db_ret.
  - apply keeps_db_try_except; [keeps_db_auto|]. intros e.
    destruct (attempt =? max_retries); [apply keeps_db_raise|].
    apply keeps_db_bind; [apply keeps_db_emit | intros _; apply IH].
Qed.

(** ** Running again *)

Lemma covers_refl src a : covers src a a.
Proof. intros uid H. exact H. Qed.

Lemma covers_trans src a b c : covers src a b -> covers src b c -> covers src a c.
Proof. intros Hab Hbc uid H. apply Hbc, Hab, H. Qed.

Lemma truthy_after_record conn src_mailbox uid dst_mailbox dst_uid message_id :
  truthy (already_transferred_by_src
            (record_transfer conn src_mailbox uid dst_mailbox dst_uid message_id)
            src_mailbox uid) = true.
Proof.
  unfold already_transferred_by_src.
  change (filter (same_key src_mailbox (str uid)) ?t)
    with (matching t src_mailbox (str uid)).
  unfold record_transfer. simpl rows.
  rewrite matching_insert_or_replace. simpl.
  now rewrite !String.eqb_refl.
Qed.

Lemma covers_record src conn src_mailbox uid dst_mailbox dst_uid message_id :
  covers src conn (record_transfer conn src_mailbox uid dst_mailbox dst_uid message_id).
Proof.
  intros u. unfold already_transferred_by_src.
  change (filter (same_key src (str u)) ?t) with (matching t src (str u)).
  unfold record_transfer. simpl rows.
  rewrite matching_insert_or_replace.
  destruct (_ && _); [reflexivity | trivial].
Qed.

Lemma blind_rerunnable {A} src (m : M A) : blind m -> keeps_db m -> rerunnable src m.
Proof.
  intros Hb Hk st1 r1 st1' H. split.
  - rewrite (Hk _ _ _ H). apply covers_refl.
  - intros st2 _ _. destruct (m st2) as [r2 st2'] eqn:E.
    exists st2'. split; [|exact (Hk _ _ _ E)].
    specialize (Hb st1 st2). rewrite H, E in Hb. simpl in Hb. now subst.
Qed.

Lemma rerunnable_bind {A B} src (m : M A) (k : A -> M B) :
  rerunnable src m -> (forall a, rerunnable src (k a)) -> rerunnable src (bind m k).
Proof.
  intros Hm Hk st1 r1 st1' H. unfold bind in H.
  destruct (m st1) as [[a|e] sa] eqn:E.
  - destruct (Hm _ _ _ E) as [Cm Rm]. destruct (Hk a _ _ _ H) as [Ck Rk]. split.
    + exact (covers_trans _ _ _ _ Cm Ck).
    + intros st2 C R.
      destruct (Rm st2 (covers_trans _ _ _ _ Ck C)) as (s2a & E2 & D2);
        [discriminate|].
      destruct (Rk s2a) as (st2' & E3 & D3).
      * now rewrite D2.
      * rewrite D2. exact R.
      * exists st2'. split; [unfold bind; now rewrite E2 | now rewrite D3].
  - inversion H; subst. destruct (Hm _ _ _ E) as [Cm Rm]. split; [exact Cm|].
    intros st2 C R. destruct (Rm st2 C) as (st2' & E2 & D2).
    + intros _. now apply R.
    + exists st2'. split; [unfold bind; now rewrite E2 | exact D2].
Qed.

Lemma rerunnable_try_finally {A} src (m : M A) (f : M unit) :
  rerunnable src m -> blind f -> keeps_db f -> rerunnable src (try_finally m f).
Proof.
  intros Hm Hb Hk st1 r1 st1' H. unfold try_finally in H.
  destruct (m st1) as [ra sa] eqn:E. destruct (Hm _ _ _ E) as [Cm Rm].
  destruct (f sa) as [rf sf] eqn:E2. pose proof (Hk _ _ _ E2) as Df.
  assert (Hst : st1' = sf) by (destruct rf; now inversion H). subst st1'.
  assert (Hraise : is_raise ra = true -> is_raise r1 = true).
  { destruct rf; inversion H; subst; [trivial | reflexivity]. }
  split; [now rewrite Df|].
  intros st2 C R. rewrite Df in C, R.
  destruct (Rm st2 C (fun Hr => R (Hraise Hr))) as (s2a & E3 & D3).
  destruct (f s2a) as [rf2 sf2] eqn:E4.
  exists sf2. split.
  - unfold try_finally. rewrite E3, E4.
    specialize (Hb sa s2a). rewrite E2, E4 in Hb. simpl in Hb. subst rf2.
    destruct rf; now inversion H.
  - rewrite (Hk _ _ _ E4). exact D3.
Qed.

Lemma rerunnable_for_each {A} src (l : list A) (body : A -> M unit) :
  (forall x, rerunnable src (body x)) -> rerunnable src (for_each l body).
Proof.
  intros Hb. induction l as [|x l IH]; simpl.
  - apply blind_rerunnable; [apply blind_ret | apply keeps_db_ret].
  - apply rerunnable_bind; [apply Hb | intros _; exact IH].
Qed.

Section Rerun.

Variable env : endpoints.
Hypothesis env_free : history_free env.

(** The heart of the matter: one key.  A key that the first run recorded
    is skipped by the second; a key that the first run left unrecorded
    meets the same answers again and is left unrecorded again. *)
Lemma rerunnable_process_uid src_mailbox dst_mailbox archive_mailbox dry_run
    fetch_data uid :
  rerunnable src_mailbox
    (process_uid env src_mailbox dst_mailbox archive_mailbox dry_run fetch_data uid).
Proof.
  intros st1 r1 st1' H.
  unfold process_uid, bind at 1, read_db in H.
  destruct (truthy (already_transferred_by_src (db st1) src_mailbox uid)) eqn:S1.
  { inversion H; subst. split; [apply covers_refl|].
    intros st2 C _. exists st2. split; [|reflexivity].
    unfold process_uid, bind at 1, read_db. now rewrite (C uid S1). }
  destruct (fetch_get fetch_data uid) as [raw|] eqn:G.
  2:{ inversion H; subst. split; [apply covers_refl|].
      intros st2 C _. exists st2. split; [|reflexivity].
      unfold process_uid, bind at 1, read_db.
      destruct (truthy (already_transferred_by_src (db st2) src_mailbox uid));
        [reflexivity | now rewrite G]. }
  unfold bind at 1 in H.
  destruct (transfer_message env dst_mailbox archive_mailbox dry_run uid raw st1)
    as [rt sa] eqn:T.
  pose proof (keeps_db_transfer_message _ _ _ _ _ _ _ _ _ T) as Hdb.
  (* what the second run does when the key is not in its ledger *)
  assert (Again : forall st2,
             truthy (already_transferred_by_src (db st2) src_mailbox uid) = false ->
             exists s2a,
               transfer_message env dst_mailbox archive_mailbox dry_run uid raw st2
                 = (rt, s2a) /\ db s2a = db st2).
  { intros st2 _.
    destruct (transfer_message env dst_mailbox archive_mailbox dry_run uid raw st2)
      as [rt2 s2a] eqn:T2.
    exists s2a. split; [|exact (keeps_db_transfer_message _ _ _ _ _ _ _ _ _ T2)].
    pose proof (blind_transfer_message env env_free dst_mailbox archive_mailbox
                  dry_run uid raw st1 st2) as Hb.
    rewrite T, T2 in Hb. simpl in Hb. now subst. }
  destruct rt as [[|]|e].
  - (* recorded *)
    unfold write_db in H. inversion H; subst. cbn [db]. split.
    + rewrite Hdb. apply covers_record.
    + intros st2 C _. exists st2. split; [|reflexivity].
      unfold process_uid, bind at 1, read_db.
      rewrite (C uid (truthy_after_record _ _ _ _ _ _)). reflexivity.
  - (* the move failed *)
    inversion H; subst. split; [rewrite Hdb; apply covers_refl|].
    intros st2 C _.
    destruct (truthy (already_transferred_by_src (db st2) src_mailbox uid)) eqn:S2.
    + exists st2. split; [|reflexivity].
      unfold process_uid, bind at 1, read_db. now rewrite S2.
    + destruct (Again st2 S2) as (s2a & T2 & D2). exists s2a. split; [|exact D2].
      unfold process_uid, bind at 1, read_db. rewrite S2, G.
      unfold bind at 1. now rewrite T2.
  - (* an exception *)
    inversion H; subst. split; [rewrite Hdb; apply covers_refl|].
    intros st2 C R. specialize (R eq_refl).
    destruct (truthy (already_transferred_by_src (db st2) src_mailbox uid)) eqn:S2.
    + apply R in S2. rewrite Hdb, S1 in S2. discriminate.
    + destruct (Again st2 S2) as (s2a & T2 & D2). exists s2a. split; [|exact D2].
      unfold process_uid, bind at 1, read_db. rewrite S2, G.
      unfold bind at 1. now rewrite T2.
Qed.

Lemma rerunnable_process_batch src_mailbox dst_mailbox archive_mailbox dry_run
    sleep_between batch_uids :
  rerunnable src_mailbox
    (process_batch env src_mailbox dst_mailbox archive_mailbox dry_run sleep_between
       batch_uids).
Proof.
  unfold process_batch. apply rerunnable_bind.
  - apply blind_rerunnable;
      [now apply blind_fetch_attempts | apply keeps_db_fetch_attempts].
  - intros [d|].
    + apply rerunnable_bind.
      * apply rerunnable_for_each. intros uid. apply rerunnable_process_uid.
      * intros _. apply blind_rerunnable.
        -- destruct (0 <? sleep_between); [apply blind_emit | apply blind_ret].
        -- destruct (0 <? sleep_between); [apply keeps_db_emit | apply keeps_db_ret].
    + apply blind_rerunnable; [apply blind_ret | apply keeps_db_ret].
Qed.

Lemma rerunnable_migrate_mailbox src_mailbox dst_mailbox batch sleep_between dry_run :
  rerunnable src_mailbox
    (migrate_mailbox env src_mailbox dst_mailbox batch sleep_between dry_run).
Proof.
  pose proof (blind_close_both env env_free) as Bc.
  pose proof (keeps_db_close_both env) as Kc.
  unfold migrate_mailbox.
  apply rerunnable_bind;
    [apply blind_rerunnable; [apply blind_emit | apply keeps_db_emit]|]. intros _.
  apply rerunnable_bind;
    [apply blind_rerunnable; [now apply blind_connect_imap | apply keeps_db_connect_imap]|].
  intros _.
  apply rerunnable_bind;
    [apply blind_rerunnable; [now apply blind_connect_imap | apply keeps_db_connect_imap]|].
  intros _.
  apply rerunnable_bind;
    [apply blind_rerunnable;
       [now apply blind_ensure_mailbox | apply keeps_db_ensure_mailbox]|].
  intros ensured. destruct (negb ensured); [now apply blind_rerunnable|].
  apply rerunnable_bind;
    [apply blind_rerunnable;
       [now apply blind_ensure_mailbox | apply keeps_db_ensure_mailbox]|].
  intros _.
  apply rerunnable_bind.
  { apply blind_rerunnable.
    - apply blind_try_except.
      + apply blind_bind; [now apply blind_perform | intros _; apply blind_ret].
      + intros _. apply blind_bind; [exact Bc | intros _; apply blind_ret].
    - apply keeps_db_try_except; [keeps_db_auto|]. intros _.
      apply keeps_db_bind; [exact Kc | intros _; apply keeps_db_ret]. }
  intros selected. destruct (negb selected);
    [apply blind_rerunnable; [apply blind_ret | apply keeps_db_ret]|].
  apply rerunnable_bind.
  { apply blind_rerunnable.
    - apply blind_try_except.
      + apply blind_bind; [now apply blind_safe_search_from | intros; apply blind_ret].
      + intros _. apply blind_bind; [exact Bc | intros _; apply blind_ret].
    - apply keeps_db_try_except.
      + apply keeps_db_bind; [apply keeps_db_safe_search_from | intros; apply keeps_db_ret].
      + intros _. apply keeps_db_bind; [exact Kc | intros _; apply keeps_db_ret]. }
  intros [[uids|]|];
    [| |apply blind_rerunnable; [apply blind_ret | apply keeps_db_ret]].
  - apply rerunnable_try_finally; [|exact Bc | exact Kc].
    apply rerunnable_bind.
    + apply blind_rerunnable; unfold batches.
      * destruct (batch =? 0); [apply blind_raise|].
        destruct (batch <? 0); apply blind_ret.
      * destruct (batch =? 0); [apply keeps_db_raise|].
        destruct (batch <? 0); apply keeps_db_ret.
    + intros bs. apply rerunnable_for_each. intros b.
      apply rerunnable_process_batch.
  - apply rerunnable_try_finally; [|exact Bc | exact Kc].
    apply blind_rerunnable; [apply blind_raise | apply keeps_db_raise].
Qed.

End Rerun.




(** ** The scenarios of the specification *)

(** Keys 1, 2, 3 in batches of two: two fetches, [1; 2] then [3], three
    appends, three moves to "Migrated/INBOX" and three ledger rows. *)
Example three_messages_in_batches_of_two :
  let (r, st') := migrate_mailbox (scripted calm ["INBOX"] [1; 2; 3])
                    "INBOX" "INBOX" 2 2 false fresh in
  r = Ok tt /\
  filter (attempted is_fetch) (trace st') = [Done (Fetch [1; 2]); Done (Fetch [3])] /\
  filter (attempted is_move) (trace st') =
    [Done (Move 1 "Migrated/INBOX"); Done (Move 2 "Migrated/INBOX");
     Done (Move 3 "Migrated/INBOX")] /\
  count (succeeded is_append) (log st') = 3%nat /\
  map col_src_uid (committed (db st')) = ["1"; "2"; "3"].
Proof. vm_compute. repeat split. Qed.

(** A ledger that already holds ("INBOX", "2"): the batch [1; 2; 3] is
    fetched whole, key 2 is neither appended nor moved, and its row is the
    one the ledger had. *)
Example recorded_key_is_skipped :
  let before := record_transfer (open_db []) "INBOX" 2 "INBOX" None None in
  let (r, st') := migrate_mailbox (scripted calm ["INBOX"] [1; 2; 3])
                    "INBOX" "INBOX" 50 2 false {| db := before; log := [] |} in
  r = Ok tt /\
  filter (attempted is_fetch) (trace st') = [Done (Fetch [1; 2; 3])] /\
  filter (attempted is_move) (trace st') =
    [Done (Move 1 "Migrated/INBOX"); Done (Move 3 "Migrated/INBOX")] /\
  matching (rows (db st')) "INBOX" "2" = rows before.
Proof. vm_compute. repeat split. Qed.

(** * Further properties *)

(** ** The ledger key *)

Lemma to_int_not_nil n :
  Z.to_int n <> Decimal.Pos Decimal.Nil /\ Z.to_int n <> Decimal.Neg Decimal.Nil.
Proof.
  destruct n as [|p|p]; simpl; split; intros H; try discriminate H;
    inversion H as [H']; exact (Unsigned.to_uint_nonnil p H').
Qed.

(** Reading the text of an integer gives the integer back. *)
Lemma str_read_back n : NilZero.int_of_string (str n) = Some (Z.to_int n).
Proof.
  unfold str. destruct (to_int_not_nil n) as [H1 H2]. now apply NilZero.isi.
Qed.

(** X1.  [str] loses nothing: two integer keys with the same text are the
    same key, so distinct keys of a mailbox never share a ledger row. *)
Theorem str_injective : forall a b : Z, str a = str b -> a = b.
Proof.
  intros a b H. apply (f_equal NilZero.int_of_string) in H.
  rewrite !str_read_back in H. inversion H as [H']. now apply DecimalZ.to_int_inj.
Qed.

Lemma str_injective_witness : (7 : Z) = 7.
Proof. exact (str_injective 7 7 eq_refl). Defined.

Lemma str_eqb a b : String.eqb (str a) (str b) = (a =? b).
Proof.
  destruct (Z.eqb_spec a b) as [->|Hne].
  - apply String.eqb_refl.
  - apply String.eqb_neq. intros H. apply Hne.
    apply (f_equal NilZero.int_of_string) in H. rewrite !str_read_back in H.
    inversion H as [H']. now apply DecimalZ.to_int_inj.
Qed.

(** X2.  Lookup after a write, for every pair: the check finds the pair
    just recorded, and for any other mailbox or key it answers as it did
    before the write. *)
Theorem lookup_after_record :
  forall conn src_mailbox src_uid dst_mailbox dst_uid message_id m u,
    already_transferred_by_src
      (record_transfer conn src_mailbox src_uid dst_mailbox dst_uid message_id) m u =
    if String.eqb m src_mailbox && (u =? src_uid) then Some [1]
    else already_transferred_by_src conn m u.
Proof.
  intros conn sm su dm du mid m u. unfold already_transferred_by_src.
  change (filter (same_key m (str u)) ?t) with (matching t m (str u)).
  unfold record_transfer. simpl rows.
  rewrite matching_insert_or_replace. simpl.
  rewrite str_eqb. now destruct (String.eqb m sm && (u =? su)).
Qed.

(** ** The size of the table and its rowids *)

Lemma filter_split_length {A} (f : A -> bool) (l : list A) :
  (List.length (filter f l) + List.length (filter (fun x => negb (f x)) l)
   = List.length l)%nat.
Proof.
  induction l as [|x l IH]; simpl; [reflexivity|].
  destruct (f x); simpl; lia.
Qed.

(** X3.  On a ledger with one row per pair, a write for a pair that has a
    row keeps the number of rows, and a write for a new pair adds exactly
    one row. *)
Theorem record_transfer_row_count :
  forall conn src_mailbox src_uid dst_mailbox dst_uid message_id,
    unique_keys (rows conn) ->
    List.length
      (rows (record_transfer conn src_mailbox src_uid dst_mailbox dst_uid message_id)) =
    if truthy (already_transferred_by_src conn src_mailbox src_uid)
    then List.length (rows conn)
    else S (List.length (rows conn)).
Proof.
  intros conn m u d du mid U.
  unfold record_transfer, insert_or_replace. simpl.
  rewrite length_app. simpl.
  pose proof (filter_split_length (same_key m (str u)) (rows conn)) as Hsplit.
  specialize (U m (str u)). unfold matching in U.
  unfold already_transferred_by_src.
  destruct (filter (same_key m (str u)) (rows conn)) as [|r l] eqn:F; simpl in *; lia.
Qed.

Lemma record_transfer_row_count_witness :
  List.length
    (rows (record_transfer (record_transfer (open_db []) "INBOX" 1 "INBOX" None None)
             "INBOX" 1 "Archive" None None)) = 1%nat.
Proof.
  refine (record_transfer_row_count
            (record_transfer (open_db []) "INBOX" 1 "INBOX" None None)
            "INBOX" 1 "Archive" None None _).
  intros m k. unfold matching. simpl.
  destruct (same_key m k _); simpl; lia.
Defined.

Lemma rowid_below_next t x : In x (rowids t) -> x < next_rowid t.
Proof.
  unfold next_rowid, rowids. induction (map col_id t) as [|y l IH]; cbn [fold_right In].
  - intros [].
  - intros [->|H]; [lia|]. specialize (IH H). lia.
Qed.

Lemma rowids_filter f t x : In x (rowids (filter f t)) -> In x (rowids t).
Proof.
  unfold rowids. rewrite !in_map_iff. intros (r & E & Hin).
  apply filter_In in Hin. exists r. tauto.
Qed.

Lemma NoDup_rowids_filter f t : NoDup (rowids t) -> NoDup (rowids (filter f t)).
Proof.
  unfold rowids. induction t as [|r t IH]; simpl; intros H; [constructor|].
  inversion H as [|? ? Hnin Hnd]; subst.
  destruct (f r); simpl; [|now apply IH].
  constructor; [|now apply IH].
  intros Hin. apply Hnin. exact (rowids_filter f t _ Hin).
Qed.



(** ** The ledger along a run *)

Section LedgerSteps.

Variable R : connection -> connection -> Prop.
Hypothesis R_refl : forall a, R a a.
Hypothesis R_trans : forall a b c, R a b -> R b c -> R a c.
Hypothesis R_record :
  forall conn src_mailbox uid dst_mailbox dst_uid message_id,
    R conn (record_transfer conn src_mailbox uid dst_mailbox dst_uid message_id).

Lemma steps_keeps {A} (m : M A) : keeps_db m -> steps R m.
Proof. intros H st r st' E. rewrite (H _ _ _ E). apply R_refl. Qed.

Lemma steps_bind {A B} (m : M A) (k : A -> M B) :
  steps R m -> (forall a, steps R (k a)) -> steps R (bind m k).
Proof.
  intros Hm Hk st r st' H. unfold bind in H.
  destruct (m st) as [[a|e] s1] eqn:E.
  - exact (R_trans _ _ _ (Hm _ _ _ E) (Hk a _ _ _ H)).
  - inversion H; subst. exact (Hm _ _ _ E).
Qed.

Lemma steps_try_finally {A} (m : M A) (f : M unit) :
  steps R m -> steps R f -> steps R (try_finally m f).
Proof.
  intros Hm Hf st r st' H. unfold try_finally in H.
  destruct (m st) as [r1 s1] eqn:E. destruct (f s1) as [[u|e] s2] eqn:E2;
    inversion H; subst; exact (R_trans _ _ _ (Hm _ _ _ E) (Hf _ _ _ E2)).
Qed.

Lemma steps_for_each {A} (l : list A) (body : A -> M unit) :
  (forall x, steps R (body x)) -> steps R (for_each l body).
Proof.
  intros Hb. induction l as [|x l IH]; simpl.
  - apply steps_keeps, keeps_db_ret.
  - apply steps_bind; [apply Hb | intros _; exact IH].
Qed.

Lemma steps_process_uid env src_mailbox dst_mailbox archive_mailbox dry_run
    fetch_data uid :
  steps R (process_uid env src_mailbox dst_mailbox archive_mailbox dry_run fetch_data uid).
Proof.
  unfold process_uid.
  apply steps_bind; [apply steps_keeps, keeps_db_read_db|]. intros seen.
  destruct (truthy seen); [apply steps_keeps, keeps_db_ret|].
  destruct (fetch_get fetch_data uid) as [raw|]; [|apply steps_keeps, keeps_db_ret].
  apply steps_bind; [apply steps_keeps, keeps_db_transfer_message|].
  intros [|]; [|apply steps_keeps, keeps_db_ret].
  intros st r st' H. inversion H; subst. apply R_record.
Qed.

Lemma steps_process_batch env src_mailbox dst_mailbox archive_mailbox dry_run
    sleep_between batch_uids :
  steps R
    (process_batch env src_mailbox dst_mailbox archive_mailbox dry_run sleep_between
       batch_uids).
Proof.
  unfold process_batch.
  apply steps_bind; [apply steps_keeps, keeps_db_fetch_attempts|].
  intros [d|]; [|apply steps_keeps, keeps_db_ret].
  apply steps_bind.
  - apply steps_for_each. intros uid. apply steps_process_uid.
  - intros _. apply steps_keeps.
    destruct (0 <? sleep_between); [apply keeps_db_emit | apply keeps_db_ret].
Qed.

Lemma steps_migrate_mailbox env src_mailbox dst_mailbox batch sleep_between dry_run :
  steps R (migrate_mailbox env src_mailbox dst_mailbox batch sleep_between dry_run).
Proof.
  pose proof (keeps_db_close_both env) as Kc.
  unfold migrate_mailbox.
  apply steps_bind; [apply steps_keeps, keeps_db_emit|]. intros _.
  apply steps_bind; [apply steps_keeps, keeps_db_connect_imap|]. intros _.
  apply steps_bind; [apply steps_keeps, keeps_db_connect_imap|]. intros _.
  apply steps_bind; [apply steps_keeps, keeps_db_ensure_mailbox|]. intros ensured.
  destruct (negb ensured); [now apply steps_keeps|].
  apply steps_bind; [apply steps_keeps, keeps_db_ensure_mailbox|]. intros _.
  apply steps_bind.
  { apply steps_keeps. apply keeps_db_try_except; [keeps_db_auto|]. intros _.
    apply keeps_db_bind; [exact Kc | intros _; apply keeps_db_ret]. }
  intros selected. destruct (negb selected); [apply steps_keeps, keeps_db_ret|].
  apply steps_bind.
  { apply steps_keeps. apply keeps_db_try_except.
    - apply keeps_db_bind; [apply keeps_db_safe_search_from | intros; apply keeps_db_ret].
    - intros _. apply keeps_db_bind; [exact Kc | intros _; apply keeps_db_ret]. }
  intros [[uids|]|]; [| |apply steps_keeps, keeps_db_ret].
  - apply steps_try_finally; [|now apply steps_keeps].
    apply steps_bind.
    + apply steps_keeps. unfold batches.
      destruct (batch =? 0); [apply keeps_db_raise|].
      destruct (batch <? 0); apply keeps_db_ret.
    + intros bs. apply steps_for_each. intros b. apply steps_process_batch.
  - apply steps_try_finally; [|now apply steps_keeps].
    apply steps_keeps, keeps_db_raise.
Qed.

Lemma steps_main env exclude_folders mapping dry_run :
  steps R (main env exclude_folders mapping dry_run).
Proof.
  unfold main, list_mailboxes, migrate_all.
  apply steps_bind; [apply steps_keeps, keeps_db_connect_imap|]. intros _.
  apply steps_bind; [apply steps_keeps, keeps_db_ask|]. intros mailboxes.
  apply steps_bind; [apply steps_keeps, keeps_db_perform|]. intros _.
  apply steps_for_each. intros m.
  destruct (excluded exclude_folders m); [apply steps_keeps, keeps_db_ret|].
  apply steps_migrate_mailbox.
Qed.

End LedgerSteps.

(** X5.  The ledger is a permanent history: whatever the servers do,
    whether the run is a dry run or not and whether it ends normally or
    with an exception, every pair that [main] finds recorded is still
    recorded when it ends. *)
Theorem run_never_forgets :
  forall env exclude_folders mapping dry_run st r st' m uid,
    main env exclude_folders mapping dry_run st = (r, st') ->
    truthy (already_transferred_by_src (db st) m uid) = true ->
    truthy (already_transferred_by_src (db st') m uid) = true.
Proof.
  intros env excl mapping dry st r st' m uid Hrun Hseen.
  refine (steps_main (covers m) (covers_refl m) (covers_trans m) _
            env excl mapping dry _ _ _ Hrun uid Hseen).
  intros. apply covers_record.
Qed.

Lemma run_never_forgets_witness :
  truthy (already_transferred_by_src
            (db (snd (main (scripted move_fails ["INBOX"] [2]) [] None false
                        {| db := record_transfer (open_db []) "INBOX" 2 "INBOX" None None;
                           log := [] |})))
            "INBOX" 2) = true.
Proof.
  refine (run_never_forgets (scripted move_fails ["INBOX"] [2]) [] None false
            {| db := record_transfer (open_db []) "INBOX" 2 "INBOX" None None;
               log := [] |} (Ok tt) _ "INBOX" 2 _ _).
  - vm_compute. reflexivity.
  - reflexivity.
Defined.

Lemma ledger_sound_record conn src_mailbox uid dst_mailbox dst_uid message_id :
  ledger_sound conn ->
  ledger_sound (record_transfer conn src_mailbox uid dst_mailbox dst_uid message_id).
Proof.
  intros [U _]. split; [|reflexivity].
  exact (unique_keys_record_write conn
           {| w_src_mailbox := src_mailbox; w_src_uid := uid;
              w_dst_mailbox := dst_mailbox; w_dst_uid := dst_uid;
              w_message_id := message_id |} U).
Qed.

(** X6.  A run keeps the ledger in good order: started on a ledger with
    one row per pair and nothing uncommitted, [main] ends, normally or
    with an exception, on a ledger with one row per pair and nothing
    uncommitted. *)
Theorem run_keeps_ledger_sound :
  forall env exclude_folders mapping dry_run st r st',
    main env exclude_folders mapping dry_run st = (r, st') ->
    ledger_sound (db st) ->
    ledger_sound (db st').
Proof.
  intros env excl mapping dry st r st' Hrun Hsound.
  refine (steps_main (fun a b => ledger_sound a -> ledger_sound b) _ _ _
            env excl mapping dry _ _ _ Hrun Hsound).
  - auto.
  - auto.
  - intros. now apply ledger_sound_record.
Qed.

Lemma run_keeps_ledger_sound_witness :
  ledger_sound (db (snd (main (scripted calm ["INBOX"] [1; 2]) [] None false fresh))).
Proof.
  refine (run_keeps_ledger_sound (scripted calm ["INBOX"] [1; 2]) [] None false fresh
            (Ok tt) _ _ _).
  - vm_compute. reflexivity.
  - split; [|reflexivity]. intros m k. simpl. lia.
Defined.

(** ** One message: the ledger write and the move *)

(** X7.  In a run that is not a dry run, the iteration for a key writes the
    ledger exactly when its move to the archive succeeded: after a
    successful move the iteration ends normally with the row of the key
    written, and without one the ledger is untouched. *)
Theorem ledger_write_iff_moved :
  forall env src_mailbox dst_mailbox archive_mailbox fetch_data uid st r st' new,
    process_uid env src_mailbox dst_mailbox archive_mailbox false fetch_data uid st
      = (r, st') ->
    log st' = new ++ log st ->
    (In (Done (Move uid archive_mailbox)) new /\
     r = Ok tt /\
     exists raw,
       fetch_get fetch_data uid = Some raw /\
       db st' = record_transfer (db st) src_mailbox uid dst_mailbox None
                  (message_id_header env (RFC822 raw))) \/
    (~ In (Done (Move uid archive_mailbox)) new /\ db st' = db st).
Proof.
  intros env src dst arch fd uid st r st' new Hrun Hlog.
  unfold process_uid, bind at 1, read_db in Hrun.
  destruct (truthy (already_transferred_by_src (db st) src uid)) eqn:Hseen.
  { inversion Hrun; subst. apply no_events_added in Hlog. subst. right. now split. }
  destruct (fetch_get fd uid) as [raw|].
  2:{ inversion Hrun; subst. apply no_events_added in Hlog. subst. right. now split. }
  unfold transfer_message in Hrun. cbn [negb] in Hrun.
  unfold bind at 1 2 in Hrun.
  assert (Hp : forall c, is_session c = true -> is_move c = false)
    by (intros c H; destruct c; try discriminate H; reflexivity).
  destruct (append_attempts env dst raw 3 st) as [[[]|ea] sa] eqn:Happ;
    pose proof (keeps_db_append_attempts _ _ _ _ _ _ _ Happ) as Hdb;
    destruct (avoids_append_attempts env is_move Hp dst raw 3 eq_refl _ _ _ Happ)
      as (n1 & L1 & F1);
    rewrite Forall_forall in F1.
  - unfold try_except, bind, perform, ret in Hrun.
    destruct (failure env (log sa) (Move uid arch)) as [e'|] eqn:Hmove;
      cbn [any_exception] in Hrun.
    + inversion Hrun; subst. cbn [log with_log] in Hlog. rewrite L1 in Hlog.
      apply (log_extension_unique (log st) (Failed (Move uid arch) e' :: n1)) in Hlog.
      subst new. right. split; [|exact Hdb].
      intros [Hin|Hin]; [discriminate|]. specialize (F1 _ Hin). discriminate.
    + unfold write_db in Hrun. inversion Hrun; subst.
      cbn [log with_log] in Hlog. rewrite L1 in Hlog.
      apply (log_extension_unique (log st) (Done (Move uid arch) :: n1)) in Hlog.
      subst new. left. split; [now left|]. split; [reflexivity|].
      exists raw. split; [reflexivity|]. cbn [db with_log]. now rewrite Hdb.
  - inversion Hrun; subst. rewrite L1 in Hlog. apply log_extension_unique in Hlog.
    subst new. right. split; [|exact Hdb].
    intros Hin. specialize (F1 _ Hin). discriminate.
Qed.

Lemma ledger_write_iff_moved_witness :
  let env := scripted calm ["INBOX"] [7] in
  let st' := snd (process_uid env "INBOX" "INBOX" "Migrated/INBOX" false
                    [(7, sample_message)] 7 fresh) in
  (In (Done (Move 7 "Migrated/INBOX")) (log st') /\
   Ok tt = Ok tt /\
   exists raw,
     fetch_get [(7, sample_message)] 7 = Some raw /\
     db st' = record_transfer (db fresh) "INBOX" 7 "INBOX" None
                (message_id_header env (RFC822 raw))) \/
  (~ In (Done (Move 7 "Migrated/INBOX")) (log st') /\ db st' = db fresh).
Proof.
  intros env st'.
  refine (ledger_write_iff_moved env "INBOX" "INBOX" "Migrated/INBOX"
            [(7, sample_message)] 7 fresh (Ok tt) st' (log st') _ _).
  - vm_compute. reflexivity.
  - vm_compute. reflexivity.
Defined.

(** ** How many calls an action makes *)

Lemma at_most_of_avoids {A} p n (m : M A) : avoids p m -> at_most p n m.
Proof.
  intros H st r st' E. destruct (H _ _ _ E) as (new & L & F).
  exists new. split; [exact L|]. rewrite (count_attempted_avoided p new F). lia.
Qed.

Lemma at_most_weaken {A} p n n' (m : M A) :
  (n <= n')%nat -> at_most p n m -> at_most p n' m.
Proof.
  intros Hle H st r st' E. destruct (H _ _ _ E) as (new & L & C).
  exists new. split; [exact L | lia].
Qed.

Lemma at_most_bind {A B} p a b (m : M A) (k : A -> M B) :
  at_most p a m -> (forall x, at_most p b (k x)) -> at_most p (a + b) (bind m k).
Proof.
  intros Hm Hk st r st' H. unfold bind in H.
  destruct (m st) as [[x|e] s1] eqn:E.
  - destruct (Hm _ _ _ E) as (n1 & L1 & C1).
    destruct (Hk x _ _ _ H) as (n2 & L2 & C2).
    exists (n2 ++ n1). split; [now rewrite L2, L1, app_assoc|].
    rewrite count_app. lia.
  - inversion H; subst. destruct (Hm _ _ _ E) as (n1 & L1 & C1).
    exists n1. split; [exact L1 | lia].
Qed.

Lemma at_most_try_except {A} p a b (m : M A) catches (h : exn -> M A) :
  at_most p a m -> (forall e, at_most p b (h e)) ->
  at_most p (a + b) (try_except m catches h).
Proof.
  intros Hm Hh st r st' H. unfold try_except in H.
  destruct (m st) as [[x|e] s1] eqn:E.
  - inversion H; subst. destruct (Hm _ _ _ E) as (n1 & L1 & C1).
    exists n1. split; [exact L1 | lia].
  - destruct (catches e).
    + destruct (Hm _ _ _ E) as (n1 & L1 & C1).
      destruct (Hh e _ _ _ H) as (n2 & L2 & C2).
      exists (n2 ++ n1). split; [now rewrite L2, L1, app_assoc|].
      rewrite count_app. lia.
    + inversion H; subst. destruct (Hm _ _ _ E) as (n1 & L1 & C1).
      exists n1. split; [exact L1 | lia].
Qed.

Lemma at_most_for_each {A} p c (l : list A) (body : A -> M unit) :
  (forall x, at_most p c (body x)) ->
  at_most p (List.length l * c) (for_each l body).
Proof.
  intros Hb. induction l as [|x l IH]; simpl.
  - apply at_most_of_avoids, avoids_ret.
  - apply at_most_bind; [apply Hb | intros _; exact IH].
Qed.

Lemma at_most_perform env p c : at_most p 1 (perform env c).
Proof.
  intros st r st' H. unfold perform in H.
  destruct (failure env (log st) c); inversion H; subst;
    (eexists [_]; split; [reflexivity|]);
    unfold count, attempted; simpl; destruct (p c); simpl; lia.
Qed.

Lemma append_not_session c : is_session c = true -> is_append c = false.
Proof. intros H. destruct c; try discriminate H; reflexivity. Qed.

Lemma move_not_session c : is_session c = true -> is_move c = false.
Proof. intros H. destruct c; try discriminate H; reflexivity. Qed.

(** The loop around [dst.append] makes at most as many appends as it has
    attempts. *)
Lemma at_most_append_attempts env dst_mailbox msg n :
  at_most is_append n (append_attempts env dst_mailbox msg n).
Proof.
  induction n as [|n IH]; simpl.
  - apply at_most_of_avoids, avoids_ret.
  - change (S n) with (1 + n)%nat.
    apply at_most_try_except; [apply at_most_perform|]. intros _.
    change n with (0 + (0 + n))%nat.
    apply at_most_bind;
      [apply at_most_of_avoids, avoids_reconnect_imap, append_not_session|].
    intros _.
    apply at_most_bind;
      [apply at_most_of_avoids, avoids_ensure_mailbox, append_not_session|].
    intros _. exact IH.
Qed.

Lemma at_most_appends_process_uid env src_mailbox dst_mailbox archive_mailbox dry_run
    fetch_data uid :
  at_most is_append 3
    (process_uid env src_mailbox dst_mailbox archive_mailbox dry_run fetch_data uid).
Proof.
  unfold process_uid.
  change 3%nat with (0 + 3)%nat.
  apply at_most_bind; [apply at_most_of_avoids, avoids_read_db|]. intros seen.
  destruct (truthy seen); [apply at_most_of_avoids, avoids_ret|].
  destruct (fetch_get fetch_data uid) as [raw|];
    [|apply at_most_of_avoids, avoids_ret].
  change 3%nat with (3 + 0)%nat.
  apply at_most_bind.
  - unfold transfer_message. destruct dry_run; cbn [negb].
    + apply at_most_of_avoids, avoids_ret.
    + change 3%nat with (3 + 0)%nat.
      apply at_most_bind; [apply at_most_append_attempts|]. intros _.
      apply at_most_of_avoids. avoids_auto.
  - intros [|]; apply at_most_of_avoids; [apply avoids_write_db | apply avoids_ret].
Qed.

Lemma at_most_moves_process_uid env src_mailbox dst_mailbox archive_mailbox dry_run
    fetch_data uid :
  at_most is_move 1
    (process_uid env src_mailbox dst_mailbox archive_mailbox dry_run fetch_data uid).
Proof.
  unfold process_uid.
  change 1%nat with (0 + 1)%nat.
  apply at_most_bind; [apply at_most_of_avoids, avoids_read_db|]. intros seen.
  destruct (truthy seen); [apply at_most_of_avoids, avoids_ret|].
  destruct (fetch_get fetch_data uid) as [raw|];
    [|apply at_most_of_avoids, avoids_ret].
  change 1%nat with (1 + 0)%nat.
  apply at_most_bind.
  - unfold transfer_message. destruct dry_run; cbn [negb].
    + apply at_most_of_avoids, avoids_ret.
    + change 1%nat with (0 + 1)%nat.
      apply at_most_bind.
      * apply at_most_of_avoids, avoids_append_attempts;
          [apply move_not_session | reflexivity].
      * intros _. change 1%nat with (1 + 0)%nat.
        apply at_most_try_except.
        -- change 1%nat with (1 + 0)%nat.
           apply at_most_bind; [apply at_most_perform|].
           intros _. apply at_most_of_avoids, avoids_ret.
        -- intros _. apply at_most_of_avoids, avoids_ret.
  - intros [|]; apply at_most_of_avoids; [apply avoids_write_db | apply avoids_ret].
Qed.

Lemma at_most_unique {A} p n (m : M A) st r st' new :
  at_most p n m -> m st = (r, st') -> log st' = new ++ log st ->
  (count (attempted p) new <= n)%nat.
Proof.
  intros H E L. destruct (H _ _ _ E) as (new' & L' & C).
  rewrite L' in L. apply log_extension_unique in L. now subst.
Qed.

(** X8.  One batch, whatever the servers do: at most three fetches, at most
    three appends and one move for each key of the batch, and no search. *)
Theorem batch_call_bounds :
  forall env src_mailbox dst_mailbox archive_mailbox dry_run sleep_between
         batch_uids st r st' new,
    process_batch env src_mailbox dst_mailbox archive_mailbox dry_run sleep_between
      batch_uids st = (r, st') ->
    log st' = new ++ log st ->
    (count (attempted is_fetch) new <= 3)%nat /\
    (count (attempted is_append) new <= 3 * List.length batch_uids)%nat /\
    (count (attempted is_move) new <= List.length batch_uids)%nat.
Proof.
  intros env src dst arch dry sleep b st r st' new Hrun Hlog.
  assert (Hsleep : forall p, p (Sleep sleep) = false ->
                             avoids p (if 0 <? sleep then emit (Sleep sleep) else ret tt)).
  { intros p Hp. destruct (0 <? sleep); [now apply avoids_emit | apply avoids_ret]. }
  split; [|split].
  - refine (at_most_unique is_fetch 3 _ _ _ _ _ _ Hrun Hlog).
    unfold process_batch. change 3%nat with (3 + 0)%nat.
    apply at_most_bind.
    + intros s0 r0 s0' E.
      destruct (fetch_attempts_outcome _ _ _ _ _ _ _ E) as (_ & n1 & L1 & _ & C1 & _).
      now exists n1.
    + intros [d|]; apply at_most_of_avoids; [|apply avoids_ret].
      apply avoids_bind; [|intros _; now apply Hsleep].
      apply avoids_for_each. intros uid.
      apply avoids_process_uid; [apply fetch_not_session|].
      intros _. apply fetch_not_transfer.
  - refine (at_most_unique is_append _ _ _ _ _ _ _ Hrun Hlog).
    unfold process_batch.
    change (3 * List.length b)%nat with (0 + (3 * List.length b))%nat.
    apply at_most_bind.
    + apply at_most_of_avoids, avoids_fetch_attempts;
        [apply append_not_session | reflexivity].
    + intros [d|]; [|apply at_most_of_avoids, avoids_ret].
      replace (3 * List.length b)%nat with (List.length b * 3 + 0)%nat by lia.
      apply at_most_bind.
      * apply at_most_for_each. intros uid. apply at_most_appends_process_uid.
      * intros _. apply at_most_of_avoids. now apply Hsleep.
  - refine (at_most_unique is_move _ _ _ _ _ _ _ Hrun Hlog).
    unfold process_batch.
    change (List.length b) with (0 + List.length b)%nat.
    apply at_most_bind.
    + apply at_most_of_avoids, avoids_fetch_attempts;
        [apply move_not_session | reflexivity].
    + intros [d|]; [|apply at_most_of_avoids, avoids_ret].
      replace (List.length b) with (List.length b * 1 + 0)%nat by lia.
      apply at_most_bind.
      * apply at_most_for_each. intros uid. apply at_most_moves_process_uid.
      * intros _. apply at_most_of_avoids. now apply Hsleep.
Qed.

Lemma batch_call_bounds_witness :
  let st' := snd (process_batch (scripted append_aborts ["INBOX"] [1; 2]) "INBOX"
                    "INBOX" "Migrated/INBOX" false 2 [1; 2] fresh) in
  (count (attempted is_fetch) (log st') <= 3)%nat /\
  (count (attempted is_append) (log st') <= 3 * 2)%nat /\
  (count (attempted is_move) (log st') <= 2)%nat.
Proof.
  intros st'.
  refine (batch_call_bounds (scripted append_aborts ["INBOX"] [1; 2]) "INBOX" "INBOX"
            "Migrated/INBOX" false 2 [1; 2] fresh (Ok tt) st' (log st') _ _).
  - vm_compute. reflexivity.
  - vm_compute. reflexivity.
Defined.

(** ** Batches *)

Lemma slices_concat {A} (batch : nat) :
  (1 <= batch)%nat ->
  forall fuel (l : list A),
    (List.length l <= fuel)%nat ->
    List.concat (slices fuel batch l) = l /\
    Forall (fun b => b <> [] /\ (List.length b <= batch)%nat) (slices fuel batch l).
Proof.
  intros Hb. induction fuel as [|fuel IH]; intros l Hlen.
  - destruct l; [|simpl in Hlen; lia]. split; [reflexivity | constructor].
  - destruct l as [|x l']; [split; [reflexivity | constructor]|].
    cbn [slices].
    assert (Hskip : (List.length (skipn batch (x :: l')) <= fuel)%nat).
    { rewrite length_skipn. cbn [List.length] in *. lia. }
    destruct (IH _ Hskip) as [Hc Hf]. split.
    + cbn [List.concat]. rewrite Hc. apply firstn_skipn.
    + constructor; [|exact Hf]. split.
      * destruct batch; [lia|]. discriminate.
      * rewrite length_firstn. lia.
Qed.

(** X9.  With a positive batch size the batches are the key sequence cut
    in order: put end to end they give back the sequence, none is empty and
    none has more keys than the batch size. *)
Theorem batches_cut_the_sequence :
  forall uids batch st,
    0 < batch ->
    exists bs,
      batches uids batch st = (Ok bs, st) /\
      List.concat bs = uids /\
      Forall (fun b => b <> [] /\ Z.of_nat (List.length b) <= batch) bs.
Proof.
  intros uids batch st Hpos. unfold batches.
  assert (E0 : (batch =? 0) = false) by (apply Z.eqb_neq; lia).
  assert (E1 : (batch <? 0) = false) by (apply Z.ltb_ge; lia).
  rewrite E0, E1. eexists. split; [reflexivity|].
  destruct (slices_concat (Z.to_nat batch) ltac:(lia) (List.length uids) uids
              (Nat.le_refl _)) as [Hc Hf].
  split; [exact Hc|].
  eapply Forall_impl; [|exact Hf]. intros b [Hne Hle]. split; [exact Hne | lia].
Qed.

Lemma batches_cut_the_sequence_witness :
  exists bs,
    batches [1; 2; 3; 4; 5] 2 fresh = (Ok bs, fresh) /\
    List.concat bs = [1; 2; 3; 4; 5] /\
    Forall (fun b => b <> [] /\ Z.of_nat (List.length b) <= 2) bs.
Proof. apply batches_cut_the_sequence. lia. Defined.

(** ** The order of the moves *)

Lemma subseq_refl {A} (l : list A) : subseq l l.
Proof. induction l; [apply subseq_nil | now apply subseq_take]. Qed.

Lemma subseq_nil_l {A} (l : list A) : subseq [] l.
Proof. induction l; constructor; assumption. Qed.

Lemma subseq_app {A} (a1 a2 b1 b2 : list A) :
  subseq a1 b1 -> subseq a2 b2 -> subseq (a1 ++ a2) (b1 ++ b2).
Proof.
  intros H1 H2. induction H1; simpl;
    [exact H2 | apply subseq_skip | apply subseq_take]; assumption.
Qed.

Lemma subseq_trans {A} (a b c : list A) : subseq a b -> subseq b c -> subseq a c.
Proof.
  intros Hab Hbc. revert a Hab.
  induction Hbc as [|x l1 l2 Hbc IH|x l1 l2 Hbc IH]; intros a Hab.
  - exact Hab.
  - constructor. now apply IH.
  - inversion Hab; subst.
    + apply subseq_skip. now apply IH.
    + apply subseq_take. now apply IH.
Qed.

Lemma moved_app a b : moved (a ++ b) = moved b ++ moved a.
Proof. unfold moved. now rewrite rev_app_distr, flat_map_app. Qed.

Lemma moved_avoided l :
  Forall (fun ev => is_move (call_of ev) = false) l -> moved l = [].
Proof.
  intros H. unfold moved. apply Forall_rev in H.
  induction H as [|ev l' Hev _ IH]; [reflexivity|]. simpl. rewrite IH.
  unfold moved_by. destruct (call_of ev); try discriminate Hev; reflexivity.
Qed.

Section MovesIn.

Context {A B : Type}.
Variable L : list Z -> Prop.

Lemma moves_in_of_avoids (m : M A) : (exists l, L l) -> avoids is_move m -> moves_in L m.
Proof.
  intros [l Hl] H st r st' E. destruct (H _ _ _ E) as (new & Hlog & F).
  exists new, l. split; [exact Hlog|]. split; [exact Hl|].
  rewrite (moved_avoided _ F). apply subseq_nil_l.
Qed.

(** A step without moves, whose value tells where the moves that follow
    will be. *)
Lemma moves_in_bind (Q : A -> Prop) (m : M A) (k : A -> M B) :
  (exists l, L l) ->
  avoids is_move m -> yields Q m ->
  (forall a, Q a -> moves_in L (k a)) ->
  moves_in L (bind m k).
Proof.
  intros Hinh Hm Hq Hk st r st' H. unfold bind in H.
  destruct (m st) as [[a|e] s1] eqn:E.
  - destruct (Hm _ _ _ E) as (n1 & L1 & F1).
    destruct (Hk a (Hq _ _ _ E) _ _ _ H) as (n2 & l & L2 & Hl & S2).
    exists (n2 ++ n1), l. split; [now rewrite L2, L1, app_assoc|].
    split; [exact Hl|]. rewrite moved_app, (moved_avoided _ F1). exact S2.
  - inversion H; subst. destruct (Hm _ _ _ E) as (n1 & L1 & F1).
    destruct Hinh as [l Hl]. exists n1, l. split; [exact L1|]. split; [exact Hl|].
    rewrite (moved_avoided _ F1). apply subseq_nil_l.
Qed.

End MovesIn.

Lemma yields_any {A} (m : M A) : yields (fun _ => True) m.
Proof. intros st a st' _. exact I. Qed.

Lemma moves_in_try_finally {A} L (m : M A) (f : M unit) :
  moves_in L m -> avoids is_move f -> moves_in L (try_finally m f).
Proof.
  intros Hm Hf st r st' H. unfold try_finally in H.
  destruct (m st) as [r1 s1] eqn:E. destruct (Hm _ _ _ E) as (n1 & l & L1 & Hl & S1).
  destruct (f s1) as [rf s2] eqn:E2. destruct (Hf _ _ _ E2) as (n2 & L2 & F2).
  assert (st' = s2) by (destruct rf; now inversion H). subst st'.
  exists (n2 ++ n1), l. split; [now rewrite L2, L1, app_assoc|].
  split; [exact Hl|]. rewrite moved_app, (moved_avoided _ F2), app_nil_r. exact S1.
Qed.

(** Moves that stay within given lists, one after the other. *)
Lemma moves_in_seq {A B} (l1 l2 : list Z) (m : M A) (k : A -> M B) :
  moves_in (eq l1) m -> (forall a, moves_in (eq l2) (k a)) ->
  moves_in (eq (l1 ++ l2)) (bind m k).
Proof.
  intros Hm Hk st r st' H. unfold bind in H.
  destruct (m st) as [[a|e] s1] eqn:E.
  - destruct (Hm _ _ _ E) as (n1 & l & L1 & <- & S1).
    destruct (Hk a _ _ _ H) as (n2 & l' & L2 & <- & S2).
    exists (n2 ++ n1), (l1 ++ l2). split; [now rewrite L2, L1, app_assoc|].
    split; [reflexivity|]. rewrite moved_app. now apply subseq_app.
  - inversion H; subst. destruct (Hm _ _ _ E) as (n1 & l & L1 & <- & S1).
    exists n1, (l1 ++ l2). split; [exact L1|]. split; [reflexivity|].
    rewrite <- (app_nil_r (moved n1)). apply subseq_app; [exact S1 | apply subseq_nil_l].
Qed.

Lemma moves_in_process_uid env src_mailbox dst_mailbox archive_mailbox dry_run
    fetch_data uid :
  moves_in (eq [uid])
    (process_uid env src_mailbox dst_mailbox archive_mailbox dry_run fetch_data uid).
Proof.
  assert (Hinh : exists l, [uid] = l) by now exists [uid].
  unfold process_uid.
  apply (moves_in_bind _ (fun _ => True));
    [exact Hinh | apply avoids_read_db | apply yields_any|].
  intros seen _.
  destruct (truthy seen); [apply moves_in_of_avoids; [exact Hinh | apply avoids_ret]|].
  destruct (fetch_get fetch_data uid) as [raw|];
    [|apply moves_in_of_avoids; [exact Hinh | apply avoids_ret]].
  change [uid] with ([uid] ++ []).
  apply moves_in_seq.
  - unfold transfer_message. destruct dry_run; cbn [negb].
    + apply moves_in_of_avoids; [exact Hinh | apply avoids_ret].
    + apply (moves_in_bind _ (fun _ => True)); [exact Hinh | | apply yields_any |].
      * apply avoids_append_attempts; [apply move_not_session | reflexivity].
      * intros _ _ st r st' H.
        unfold try_except, bind, perform, ret in H.
        destruct (failure env (log st) (Move uid archive_mailbox));
          cbn [any_exception] in H; inversion H; subst;
          (eexists [_], [uid]; split; [reflexivity|]; split; [reflexivity|]);
          apply subseq_refl.
  - intros [|]; apply moves_in_of_avoids;
      try (now exists []); [apply avoids_write_db | apply avoids_ret].
Qed.

Lemma moves_in_for_each_uids env src_mailbox dst_mailbox archive_mailbox dry_run
    fetch_data uids :
  moves_in (eq uids)
    (for_each uids
       (process_uid env src_mailbox dst_mailbox archive_mailbox dry_run fetch_data)).
Proof.
  induction uids as [|uid uids IH]; cbn [for_each].
  - apply moves_in_of_avoids; [now exists [] | apply avoids_ret].
  - change (uid :: uids) with ([uid] ++ uids).
    apply moves_in_seq; [apply moves_in_process_uid | intros _; exact IH].
Qed.

Lemma moves_in_process_batch env src_mailbox dst_mailbox archive_mailbox dry_run
    sleep_between batch_uids :
  moves_in (eq batch_uids)
    (process_batch env src_mailbox dst_mailbox archive_mailbox dry_run sleep_between
       batch_uids).
Proof.
  assert (Hinh : exists l, batch_uids = l) by now exists batch_uids.
  unfold process_batch.
  apply (moves_in_bind _ (fun _ => True)); [exact Hinh | | apply yields_any |].
  - apply avoids_fetch_attempts; [apply move_not_session | reflexivity].
  - intros [d|] _; [|apply moves_in_of_avoids; [exact Hinh | apply avoids_ret]].
    rewrite <- (app_nil_r batch_uids) at 1.
    apply moves_in_seq; [apply moves_in_for_each_uids|].
    intros _. apply moves_in_of_avoids; [now exists []|].
    destruct (0 <? sleep_between); [now apply avoids_emit | apply avoids_ret].
Qed.

Lemma moves_in_for_each_batches env src_mailbox dst_mailbox archive_mailbox dry_run
    sleep_between bs :
  moves_in (eq (List.concat bs))
    (for_each bs
       (process_batch env src_mailbox dst_mailbox archive_mailbox dry_run sleep_between)).
Proof.
  induction bs as [|b bs IH]; cbn [for_each List.concat].
  - apply moves_in_of_avoids; [now exists [] | apply avoids_ret].
  - apply moves_in_seq; [apply moves_in_process_batch | intros _; exact IH].
Qed.

Lemma moves_in_within {A} (L : list Z -> Prop) l1 l2 (m : M A) :
  moves_in (eq l1) m -> subseq l1 l2 -> L l2 -> moves_in L m.
Proof.
  intros Hm Hsub Hl st r st' E. destruct (Hm _ _ _ E) as (new & l & Hlog & <- & S).
  exists new, l2. split; [exact Hlog|]. split; [exact Hl|].
  exact (subseq_trans _ _ _ S Hsub).
Qed.

Lemma yields_safe_search env criteria :
  yields (fun found =>
            match found with
            | Some uids => exists h, uids = search_result env h criteria
            | None => True
            end)
    (safe_search env criteria 5 5).
Proof.
  intros st found st' H.
  destruct (safe_search_from_last env criteria 5 5 4 1 st eq_refl)
    as (k & r & st1 & final & Hrun & _ & _ & _ & Hout).
  unfold safe_search in H. change (Z.to_nat 5) with 5%nat in H.
  rewrite H in Hrun. inversion Hrun; subst.
  destruct Hout as [(h & Hr & _)|[(Hr & _)|(Hr & _)]]; try discriminate Hr.
  inversion Hr; subst. now exists h.
Qed.

Lemma yields_batches uids batch :
  yields (fun bs => subseq (List.concat bs) uids) (batches uids batch).
Proof.
  intros st bs st' H. unfold batches in H.
  destruct (batch =? 0) eqn:E0; [discriminate H|].
  destruct (batch <? 0) eqn:E1; inversion H; subst.
  - apply subseq_nil_l.
  - apply Z.eqb_neq in E0. apply Z.ltb_ge in E1.
    destruct (slices_concat (Z.to_nat batch) ltac:(lia) (List.length uids) uids
                (Nat.le_refl _)) as [Hc _].
    rewrite Hc. apply subseq_refl.
Qed.

(** X10.  In one run of [migrate_mailbox], whatever the servers do, the
    moves to the archive follow the search result: every move is for a key
    the search returned, and the moves come in the order of the search
    result, at most one for each occurrence of a key. *)
Theorem moves_follow_search_order :
  forall env src_mailbox dst_mailbox batch sleep_between dry_run st r st' new,
    migrate_mailbox env src_mailbox dst_mailbox batch sleep_between dry_run st
      = (r, st') ->
    log st' = new ++ log st ->
    exists h, subseq (moved new) (search_result env h "ALL").
Proof.
  intros env src dst batch sleep dry st r st' new Hrun Hlog.
  set (L := fun l : list Z => exists h, l = search_result env h "ALL").
  assert (Hinh : exists l, L l) by (exists (search_result env [] "ALL"); now exists []).
  pose proof move_not_session as Hp.
  assert (Hclose : avoids is_move (close_both env)) by now apply avoids_close_both.
  assert (Hm : moves_in L (migrate_mailbox env src dst batch sleep dry)).
  { unfold migrate_mailbox.
    apply (moves_in_bind L (fun _ => True));
      [exact Hinh | now apply avoids_emit | apply yields_any|]. intros _ _.
    apply (moves_in_bind L (fun _ => True));
      [exact Hinh | now apply avoids_connect_imap | apply yields_any|]. intros _ _.
    apply (moves_in_bind L (fun _ => True));
      [exact Hinh | now apply avoids_connect_imap | apply yields_any|]. intros _ _.
    apply (moves_in_bind L (fun _ => True));
      [exact Hinh | now apply avoids_ensure_mailbox | apply yields_any|].
    intros ensured _.
    destruct (negb ensured); [now apply moves_in_of_avoids|].
    apply (moves_in_bind L (fun _ => True));
      [exact Hinh | now apply avoids_ensure_mailbox | apply yields_any|]. intros _ _.
    apply (moves_in_bind L (fun _ => True)); [exact Hinh | | apply yields_any |].
    { apply avoids_try_except; [avoids_auto|]. intros _.
      apply avoids_bind; [exact Hclose | intros _; apply avoids_ret]. }
    intros selected _.
    destruct (negb selected); [apply moves_in_of_avoids; [exact Hinh | apply avoids_ret]|].
    apply (moves_in_bind L
             (fun searched =>
                match searched with
                | Some (Some uids) => L uids
                | _ => True
                end)); [exact Hinh | | |].
    { apply avoids_try_except.
      - apply avoids_bind; [|intros; apply avoids_ret].
        apply avoids_safe_search_from; [exact Hp | reflexivity].
      - intros _. apply avoids_bind; [exact Hclose | intros _; apply avoids_ret]. }
    { intros s0 searched s0' E. unfold try_except, bind at 1 in E.
      destruct (safe_search env "ALL" 5 5 s0) as [[found|e] s1] eqn:Es.
      - inversion E; subst. destruct found as [uids|]; [|exact I].
        exact (yields_safe_search env "ALL" _ _ _ Es).
      - cbn [any_exception] in E. unfold bind in E.
        destruct (close_both env s1) as [[u|e'] s2]; inversion E; subst. exact I. }
    intros [[uids|]|] Hq; [| |apply moves_in_of_avoids; [exact Hinh | apply avoids_ret]].
    - apply moves_in_try_finally; [|exact Hclose].
      apply (moves_in_bind L (fun bs => subseq (List.concat bs) uids));
        [exact Hinh | unfold batches; avoids_auto | apply yields_batches|].
      intros bs Hsub.
      exact (moves_in_within L _ _ _
               (moves_in_for_each_batches env src dst (archive_name src) dry sleep bs)
               Hsub Hq).
    - apply moves_in_try_finally; [|exact Hclose].
      apply moves_in_of_avoids; [exact Hinh | apply avoids_raise]. }
  destruct (Hm _ _ _ Hrun) as (new' & l & Hlog' & (h & ->) & Hsub).
  rewrite Hlog' in Hlog. apply log_extension_unique in Hlog. subst new'.
  now exists h.
Qed.

Lemma moves_follow_search_order_witness :
  let env := scripted move_fails ["INBOX"] [3; 1; 2] in
  let st' := snd (migrate_mailbox env "INBOX" "INBOX" 2 2 false fresh) in
  exists h, subseq (moved (log st')) (search_result env h "ALL").
Proof.
  intros env st'.
  refine (moves_follow_search_order env "INBOX" "INBOX" 2 2 false fresh (Ok tt) st'
            (log st') _ _).
  - vm_compute. reflexivity.
  - vm_compute. reflexivity.
Defined.

(** ** Closing the sessions *)

Lemma ends_closed_app n2 n1 : ends_closed n2 = true -> ends_closed (n2 ++ n1) = true.
Proof.
  destruct n2 as [|ev [|ev2 n2]]; simpl; intros H.
  - discriminate H.
  - destruct ev as [c|c e]; [discriminate H|].
    destruct c as [| |[]| | | | | | | | |]; try discriminate H.
    now destruct n1.
  - exact H.
Qed.

Lemma closed_app {A} n2 n1 (r : result A) : closed n2 r -> closed (n2 ++ n1) r.
Proof.
  intros [He Hh]. split; [now apply ends_closed_app|].
  intros Hok. apply hd_error_app. now apply Hh.
Qed.

Lemma closing_close_both env : closing (close_both env).
Proof.
  intros st r st' H. unfold close_both, bind, perform in H.
  destruct (failure env (log st) (Logout Src)) as [e|]; cbn [log with_log] in H.
  - inversion H; subst. eexists [_]. split; [reflexivity|]. split; [reflexivity|].
    discriminate.
  - destruct (failure env _ (Logout Dst)) as [e|]; inversion H; subst;
      (eexists [_; _]; split; [reflexivity|]; split; [reflexivity|]);
      [discriminate | reflexivity].
Qed.

Lemma closing_close_then {A} env (a : A) : closing (close_both env ;; ret a).
Proof.
  intros st r st' H. unfold bind at 1 in H.
  destruct (close_both env st) as [[u|e] s1] eqn:E;
    destruct (closing_close_both env _ _ _ E) as (new & L & He & Hh);
    inversion H; subst; exists new; (split; [exact L|]); split; auto.
Qed.

Lemma closing_try_finally {A} env (m : M A) :
  extends m -> closing (try_finally m (close_both env)).
Proof.
  intros Hm st r st' H. unfold try_finally in H.
  destruct (m st) as [r1 s1] eqn:E. destruct (Hm _ _ _ E) as (n1 & L1 & _).
  destruct (close_both env s1) as [[u|e] s2] eqn:E2;
    destruct (closing_close_both env _ _ _ E2) as (n2 & L2 & He & Hh);
    inversion H; subst; exists (n2 ++ n1);
    (split; [now rewrite L2, L1, app_assoc|]); apply closed_app; split; auto.
Qed.

(** A step that cannot raise. *)
Lemma closing_after {A B} (m : M A) (k : A -> M B) :
  extends m -> returns (fun _ => True) m -> (forall a, closing (k a)) ->
  closing (bind m k).
Proof.
  intros Hm Hr Hk st r st' H. unfold bind in H.
  destruct (Hr st) as (a & s1 & E & _). rewrite E in H.
  destruct (Hm _ _ _ E) as (n1 & L1 & _).
  destruct (Hk a _ _ _ H) as (n2 & L2 & C2).
  exists (n2 ++ n1). split; [now rewrite L2, L1, app_assoc | now apply closed_app].
Qed.

(** A step guarded by [try ... except: close; return]: it either lets the
    run go on or has closed the sessions. *)
Lemma closing_guard {A} env (m : M A) (giveup : A) (go : A -> bool) (k : A -> M unit) :
  extends m ->
  yields (fun a => go a = true) m ->
  go giveup = false ->
  (forall a, go a = false -> k a = ret tt) ->
  (forall a, go a = true -> closing (k a)) ->
  closing (bind (try_except m any_exception (fun _ => close_both env ;; ret giveup)) k).
Proof.
  intros Hm Hy Hgive Hstop Hgo st r st' H. unfold bind at 1, try_except in H.
  destruct (m st) as [[a|e] s1] eqn:E; destruct (Hm _ _ _ E) as (n1 & L1 & _).
  - destruct (Hgo a (Hy _ _ _ E) _ _ _ H) as (n2 & L2 & C2).
    exists (n2 ++ n1). split; [now rewrite L2, L1, app_assoc | now apply closed_app].
  - cbn [any_exception] in H.
    destruct ((close_both env;; ret giveup) s1) as [[a|e'] s2] eqn:E2;
      destruct (closing_close_then env giveup _ _ _ E2) as (n2 & L2 & He & Hh).
    + assert (a = giveup).
      { unfold bind in E2. destruct (close_both env s1) as [[u|x] s3]; now inversion E2. }
      subst a. rewrite (Hstop giveup Hgive) in H. inversion H; subst.
      exists (n2 ++ n1). split; [now rewrite L2, L1, app_assoc|].
      apply closed_app. split; [exact He|]. intros _. now apply Hh.
    + inversion H; subst.
      exists (n2 ++ n1). split; [now rewrite L2, L1, app_assoc|].
      apply closed_app. split; [exact He|]. intros Hok. discriminate Hok.
Qed.

Lemma nothing_avoided c : is_session c = true -> (fun _ : call => false) c = false.
Proof. reflexivity. Qed.

Lemma extends_process_batch env src_mailbox dst_mailbox archive_mailbox dry_run
    sleep_between batch_uids :
  extends
    (process_batch env src_mailbox dst_mailbox archive_mailbox dry_run sleep_between
       batch_uids).
Proof.
  apply avoids_process_batch; [exact nothing_avoided | reflexivity | reflexivity].
Qed.

(** Either the opening of the two sessions failed, [migrate_mailbox] raised
    and attempted no logout, or both sessions were opened and the last
    thing [migrate_mailbox] did was to close them. *)
Lemma migrate_mailbox_sessions env src_mailbox dst_mailbox batch sleep_between dry_run
    st r st' new :
  migrate_mailbox env src_mailbox dst_mailbox batch sleep_between dry_run st = (r, st') ->
  log st' = new ++ log st ->
  (~ In (Done (Login Dst)) new /\ is_raise r = true /\
   count (attempted is_logout) new = 0%nat) \/
  (In (Done (Login Dst)) new /\ closed new r).
Proof.
  intros H Hlog. unfold migrate_mailbox in H.
  unfold bind at 1 2 3, emit at 1, connect_imap, bind at 1 2, perform at 1 2 3 4 in H.
  cbn [log with_log] in H.
  destruct (failure env _ (Connect Src)) as [e|]; cbn [log with_log] in H.
  { inversion H; subst. cbn [log with_log] in Hlog.
    apply (log_extension_unique (log st) [_; _]) in Hlog. subst new. left.
    split; [|split; reflexivity].
    intros Hin. repeat (destruct Hin as [Hin|Hin]; [discriminate Hin|]). exact Hin. }
  destruct (failure env _ (Login Src)) as [e|]; cbn [log with_log] in H.
  { inversion H; subst. cbn [log with_log] in Hlog.
    apply (log_extension_unique (log st) [_; _; _]) in Hlog. subst new. left.
    split; [|split; reflexivity].
    intros Hin. repeat (destruct Hin as [Hin|Hin]; [discriminate Hin|]). exact Hin. }
  destruct (failure env _ (Connect Dst)) as [e|]; cbn [log with_log] in H.
  { inversion H; subst. cbn [log with_log] in Hlog.
    apply (log_extension_unique (log st) [_; _; _; _]) in Hlog. subst new. left.
    split; [|split; reflexivity].
    intros Hin. repeat (destruct Hin as [Hin|Hin]; [discriminate Hin|]). exact Hin. }
  destruct (failure env _ (Login Dst)) as [e|]; cbn [log with_log] in H.
  { inversion H; subst. cbn [log with_log] in Hlog.
    apply (log_extension_unique (log st) [_; _; _; _; _]) in Hlog. subst new. left.
    split; [|split; reflexivity].
    intros Hin. repeat (destruct Hin as [Hin|Hin]; [discriminate Hin|]). exact Hin. }
  right.
  match type of H with
  | ?m ?s = _ => assert (Hclosing : closing m)
  end.
  { apply closing_after;
      [apply avoids_ensure_mailbox, nothing_avoided | apply ensure_mailbox_returns|].
    intros ensured. destruct (negb ensured); [apply closing_close_both|].
    apply closing_after;
      [apply avoids_ensure_mailbox, nothing_avoided | apply ensure_mailbox_returns|].
    intros _.
    apply (closing_guard env _ false (fun b : bool => b)).
    - unfold extends. avoids_auto.
    - intros s0 a s0' E. unfold bind, perform, ret in E.
      destruct (failure env (log s0) _); now inversion E.
    - reflexivity.
    - intros a ->. reflexivity.
    - intros a ->. cbn [negb].
      apply (closing_guard env _ None
               (fun o : option (option (list Z)) =>
                  match o with Some _ => true | None => false end)).
      + unfold extends. apply avoids_bind; [|intros; apply avoids_ret].
        apply avoids_safe_search_from; [exact nothing_avoided | reflexivity].
      + intros s0 a s0' E. unfold bind in E.
        destruct (safe_search env "ALL" 5 5 s0) as [[found|e] s1]; now inversion E.
      + reflexivity.
      + intros [found|] Hgo; [discriminate Hgo | reflexivity].
      + intros [found|] Hgo; [|discriminate Hgo].
        apply closing_try_finally. unfold extends.
        destruct found as [uids|]; [|apply avoids_raise].
        apply avoids_bind; [unfold batches; avoids_auto|].
        intros bs. apply avoids_for_each. intros b. apply extends_process_batch. }
  destruct (Hclosing _ _ _ H) as (n & L & C).
  cbn [log with_log] in L. rewrite L in Hlog.
  change (n ++ [Done (Login Dst); Done (Connect Dst); Done (Login Src);
                Done (Connect Src); Done (LogMigrating src_mailbox dst_mailbox)]
            ++ log st = new ++ log st) in Hlog.
  rewrite app_assoc in Hlog. apply log_extension_unique in Hlog. subst new.
  split; [apply in_or_app; right; now left | now apply closed_app].
Qed.

(** X11.  Once both sessions are open, [migrate_mailbox] cannot end
    without closing them: whichever way it ends, the newest events of its
    log are the source logout and, unless that failed, the destination
    logout; when it ends normally, the destination logout succeeded. *)
Theorem sessions_closed_at_the_end :
  forall env src_mailbox dst_mailbox batch sleep_between dry_run st r st' new,
    migrate_mailbox env src_mailbox dst_mailbox batch sleep_between dry_run st
      = (r, st') ->
    log st' = new ++ log st ->
    In (Done (Login Dst)) new ->
    ends_closed new = true /\
    (r = Ok tt -> hd_error new = Some (Done (Logout Dst))).
Proof.
  intros env src dst batch sleep dry st r st' new H Hlog Hin.
  destruct (migrate_mailbox_sessions _ _ _ _ _ _ _ _ _ _ H Hlog)
    as [(Hnin & _)|(_ & He & Hh)]; [contradiction|].
  split; [exact He|]. intros ->. now apply Hh.
Qed.

Lemma sessions_closed_at_the_end_witness :
  let env := scripted fetch_aborts_then_refuses ["INBOX"] [1; 2; 3] in
  let st' := snd (migrate_mailbox env "INBOX" "INBOX" 2 2 false fresh) in
  ends_closed (log st') = true.
Proof.
  intros env st'.
  refine (proj1 (sessions_closed_at_the_end env "INBOX" "INBOX" 2 2 false fresh
                   (Raise OtherException) st' (log st') _ _ _)).
  - vm_compute. reflexivity.
  - vm_compute. reflexivity.
  - vm_compute. repeat (first [left; reflexivity | right]).
Defined.

(** X12.  The opening of the sessions is not covered by that: when the
    destination session cannot be opened, [migrate_mailbox] raises and
    attempts no logout, so that a source session opened just before is
    left open. *)
Theorem failed_opening_closes_nothing :
  forall env src_mailbox dst_mailbox batch sleep_between dry_run st r st' new,
    migrate_mailbox env src_mailbox dst_mailbox batch sleep_between dry_run st
      = (r, st') ->
    log st' = new ++ log st ->
    ~ In (Done (Login Dst)) new ->
    is_raise r = true /\ count (attempted is_logout) new = 0%nat.
Proof.
  intros env src dst batch sleep dry st r st' new H Hlog Hnin.
  destruct (migrate_mailbox_sessions _ _ _ _ _ _ _ _ _ _ H Hlog)
    as [(_ & Hr & Hc)|(Hin & _)]; [now split | contradiction].
Qed.

Lemma failed_opening_closes_nothing_witness :
  let env := scripted refuses_destination ["INBOX"] [1] in
  let st' := snd (migrate_mailbox env "INBOX" "INBOX" 50 2 false fresh) in
  In (Done (Login Src)) (log st') /\ count (attempted is_logout) (log st') = 0%nat.
Proof.
  intros env st'. split; [vm_compute; right; left; reflexivity|].
  refine (proj2 (failed_opening_closes_nothing env "INBOX" "INBOX" 50 2 false fresh
                   (Raise OtherException) st' (log st') _ _ _)).
  - vm_compute. reflexivity.
  - vm_compute. reflexivity.
  - vm_compute. intros Hin.
    repeat (destruct Hin as [Hin|Hin]; [discriminate Hin|]). exact Hin.
Defined.

(** ** A destination that is not ready *)

Lemma returns_yields {A} (P : A -> Prop) (m : M A) : returns P m -> yields P m.
Proof.
  intros H st a st' E. destruct (H st) as (a' & s1 & E' & Pa).
  rewrite E in E'. now inversion E'; subst.
Qed.

Lemma avoids_bind_yields {A B} p (Q : A -> Prop) (m : M A) (k : A -> M B) :
  avoids p m -> yields Q m -> (forall a, Q a -> avoids p (k a)) -> avoids p (bind m k).
Proof.
  intros Hm Hq Hk st r st' H. unfold bind in H.
  destruct (m st) as [[a|e] s1] eqn:E.
  - destruct (Hm _ _ _ E) as (n1 & L1 & F1).
    destruct (Hk a (Hq _ _ _ E) _ _ _ H) as (n2 & L2 & F2).
    exists (n2 ++ n1). split; [now rewrite L2, L1, app_assoc|].
    apply Forall_app. now split.
  - inversion H; subst. exact (Hm _ _ _ E).
Qed.

(** X13.  When the destination mailbox can be neither selected nor
    created, [migrate_mailbox] does not touch the source account's
    mailboxes: it selects and creates nothing there, makes no search, no
    fetch and no move, and appends nothing. *)
Theorem unready_destination_spares_source :
  forall env src_mailbox dst_mailbox batch sleep_between dry_run st r st' new,
    (forall h, failure env h (SelectFolder Dst dst_mailbox) <> None) ->
    (forall h, failure env h (CreateFolder Dst dst_mailbox) <> None) ->
    migrate_mailbox env src_mailbox dst_mailbox batch sleep_between dry_run st
      = (r, st') ->
    log st' = new ++ log st ->
    count (attempted touches_source) new = 0%nat /\
    count (attempted is_append) new = 0%nat.
Proof.
  intros env src dst batch sleep dry st r st' new Hsel Hcre Hrun Hlog.
  set (p := fun c => touches_source c || is_append c).
  assert (Hav : avoids p (migrate_mailbox env src dst batch sleep dry)).
  { unfold migrate_mailbox.
    apply avoids_bind; [now apply avoids_emit|]. intros _.
    apply avoids_bind; [unfold connect_imap; avoids_auto|]. intros _.
    apply avoids_bind; [unfold connect_imap; avoids_auto|]. intros _.
    apply (avoids_bind_yields p (fun b => b = false)).
    - unfold ensure_mailbox. avoids_auto.
    - now apply returns_yields, ensure_mailbox_refused.
    - intros ensured ->. cbn [negb]. unfold close_both. avoids_auto. }
  destruct (Hav _ _ _ Hrun) as (new' & L & F).
  rewrite L in Hlog. apply log_extension_unique in Hlog. subst new'.
  split; apply count_attempted_avoided; eapply avoided_weaken; try exact F;
    intros c Hc; unfold p in Hc; apply orb_false_iff in Hc; tauto.
Qed.

Lemma unready_destination_spares_source_witness :
  let fails := fun (_ : list event) c =>
                 match c with
                 | SelectFolder Dst _ | CreateFolder Dst _ => Some OtherException
                 | _ => None
                 end in
  let st' := snd (migrate_mailbox (scripted fails ["INBOX"] [1; 2]) "INBOX" "INBOX" 50 2
                    false fresh) in
  count (attempted touches_source) (log st') = 0%nat /\
  count (attempted is_append) (log st') = 0%nat.
Proof.
  intros fails st'.
  refine (unready_destination_spares_source (scripted fails ["INBOX"] [1; 2]) "INBOX"
            "INBOX" 50 2 false fresh (Ok tt) st' (log st') _ _ _ _).
  - intros h. discriminate.
  - intros h. discriminate.
  - vm_compute. reflexivity.
  - vm_compute. reflexivity.
Defined.

(** ** [safe_search] in general *)

Lemma at_most_ask {A} env p c (answer : list event -> A) : at_most p 1 (ask env c answer).
Proof.
  intros st r st' H. unfold ask in H.
  destruct (failure env (log st) c); inversion H; subst;
    (eexists [_]; split; [reflexivity|]);
    unfold count, attempted; simpl; destruct (p c); simpl; lia.
Qed.

Lemma at_most_safe_search_from env criteria max_retries base_delay :
  forall n attempt,
    at_most is_search n (safe_search_from env criteria max_retries base_delay n attempt).
Proof.
  induction n as [|n IH]; intros attempt; simpl.
  - apply at_most_of_avoids, avoids_ret.
  - change (S n) with (1 + n)%nat.
    apply at_most_try_except.
    + change 1%nat with (1 + 0)%nat.
      apply at_most_bind; [apply at_most_ask|].
      intros uids. apply at_most_of_avoids, avoids_ret.
    + intros e. destruct (attempt =? max_retries);
        [apply at_most_of_avoids, avoids_raise|].
      change n with (0 + n)%nat.
      apply at_most_bind; [apply at_most_of_avoids; now apply avoids_emit|].
      intros _. apply IH.
Qed.

(** X14.  [safe_search] for any retry budget: it makes at most
    [max_retries] searches; with a budget of zero or less it makes no call
    at all and returns [None]; with a positive budget it never returns
    [None]. *)
Theorem safe_search_budget :
  forall env criteria max_retries base_delay st r st' new,
    safe_search env criteria max_retries base_delay st = (r, st') ->
    log st' = new ++ log st ->
    (count (attempted is_search) new <= Z.to_nat max_retries)%nat /\
    (max_retries <= 0 -> r = Ok None /\ new = []) /\
    (0 < max_retries -> r <> Ok None).
Proof.
  intros env criteria max base st r st' new Hrun Hlog.
  split; [|split].
  - exact (at_most_unique is_search _ _ _ _ _ _
             (at_most_safe_search_from env criteria max base (Z.to_nat max) 1)
             Hrun Hlog).
  - intros Hle. unfold safe_search in Hrun.
    replace (Z.to_nat max) with 0%nat in Hrun by lia.
    inversion Hrun; subst. split; [reflexivity|]. now apply no_events_added in Hlog.
  - intros Hpos. unfold safe_search in Hrun.
    destruct (Z.to_nat max) as [|n] eqn:En; [lia|].
    destruct (safe_search_from_last env criteria max base n 1 st ltac:(lia))
      as (k & r0 & s0 & final & Hrun0 & _ & _ & _ & Hout).
    rewrite Hrun in Hrun0. inversion Hrun0; subst.
    destruct Hout as [(h & -> & _)|[(-> & _)|(-> & _)]]; discriminate.
Qed.

Lemma safe_search_budget_witness :
  let st' := snd (safe_search (scripted search_aborts [] []) "ALL" 3 1 fresh) in
  (count (attempted is_search) (log st') <= 3)%nat.
Proof.
  intros st'.
  refine (proj1 (safe_search_budget (scripted search_aborts [] []) "ALL" 3 1 fresh
                   (Raise IMAP4_abort) st' (log st') _ _)).
  - vm_compute. reflexivity.
  - vm_compute. reflexivity.
Defined.

Lemma slept_app a b : slept (a ++ b) = slept a + slept b.
Proof.
  unfold slept. rewrite map_app, fold_right_app.
  induction (map sleep_of a) as [|x l IH]; simpl; lia.
Qed.

Lemma slept_rev l : slept (rev l) = slept l.
Proof.
  induction l as [|ev l IH]; [reflexivity|].
  cbn [rev]. rewrite slept_app, IH. unfold slept. simpl. lia.
Qed.

(** X15.  With its defaults [safe_search] sleeps at most 50 seconds in
    all, and exactly 50 when it gives up with the abort of the fifth
    search. *)
Theorem safe_search_total_wait :
  forall env criteria st r st' new,
    safe_search env criteria 5 5 st = (r, st') ->
    log st' = new ++ log st ->
    0 <= slept new <= 50 /\
    (r = Raise IMAP4_abort ->
     slept new = 50 /\ count (attempted is_search) new = 5%nat).
Proof.
  intros env criteria st r st' new Hrun Hlog.
  destruct (safe_search_from_last env criteria 5 5 4 1 st eq_refl)
    as (k & r0 & s0 & final & Hrun0 & _ & Hk & Htr & Hout).
  unfold safe_search in Hrun. change (Z.to_nat 5) with 5%nat in Hrun.
  rewrite Hrun in Hrun0. inversion Hrun0; subst r0 s0. clear Hrun0.
  unfold trace in Htr. rewrite Hlog, rev_app_distr in Htr.
  apply app_inv_head in Htr.
  assert (Hnew : new = rev (backoff criteria 5 1 k ++ [final]))
    by (now rewrite <- Htr, rev_involutive).
  assert (Hfinal : sleep_of final = 0 /\ attempted is_search final = true).
  { destruct Hout as [(h & _ & ->)|[(_ & ->)|(_ & -> & _)]]; now split. }
  destruct Hfinal as [Hs Ha].
  assert (Hcount : forall j, count (attempted is_search)
                               (rev (backoff criteria 5 1 j ++ [final])) = S j
                             \/ (4 < j)%nat).
  { intros j. do 5 (destruct j as [|j]; [left; unfold count; cbn; now rewrite Ha|]).
    right. lia. }
  split.
  - rewrite Hnew, slept_rev, slept_app.
    replace (slept [final]) with 0 by (unfold slept; simpl; lia).
    do 5 (destruct k as [|k]; [vm_compute; split; discriminate|]). lia.
  - intros ->.
    destruct Hout as [(h & Hr & _)|[(Hr & _)|(_ & _ & ->)]]; try discriminate Hr.
    split.
    + rewrite Hnew, slept_rev, slept_app.
      replace (slept [final]) with 0 by (unfold slept; simpl; lia).
      reflexivity.
    + rewrite Hnew. destruct (Hcount 4%nat) as [H|H]; [exact H | lia].
Qed.

Lemma safe_search_total_wait_witness :
  let st' := snd (safe_search (scripted search_aborts [] []) "ALL" 5 5 fresh) in
  slept (log st') = 50 /\ count (attempted is_search) (log st') = 5%nat.
Proof.
  intros st'.
  refine (proj2 (safe_search_total_wait (scripted search_aborts [] []) "ALL" fresh
                   (Raise IMAP4_abort) st' (log st') _ _) eq_refl).
  - vm_compute. reflexivity.
  - vm_compute. reflexivity.
Defined.

(** ** The mailboxes a run names *)

Lemma misaddressed_false src_mailbox dst_mailbox c :
  misaddressed src_mailbox dst_mailbox c = false -> addressed src_mailbox dst_mailbox c.
Proof.
  destruct c as [s|s|s|s|[|] m|[|] m|criteria|uids|m msg|uid m|seconds|s d];
    cbn [misaddressed addressed]; intros H; try exact I; try discriminate H;
    apply negb_false_iff in H.
  - apply orb_true_iff in H. destruct H as [H|H]; apply String.eqb_eq in H; auto.
  - now apply String.eqb_eq.
  - now apply String.eqb_eq.
  - now apply String.eqb_eq.
  - now apply String.eqb_eq.
  - now apply String.eqb_eq.
  - now apply String.eqb_eq.
  - apply andb_true_iff in H. destruct H as [H1 H2].
    apply String.eqb_eq in H1, H2. now split.
Qed.

Ltac addressed_leaf :=
  cbn [misaddressed]; rewrite ?String.eqb_refl, ?orb_true_r; reflexivity.

Section Addressing.

Variable env : endpoints.
Variables src_mailbox dst_mailbox : string.

Lemma addressed_reconnect_imap s :
  avoids (misaddressed src_mailbox dst_mailbox) (reconnect_imap env s).
Proof. unfold reconnect_imap, connect_imap. avoids_auto. Qed.

Lemma addressed_close_both :
  avoids (misaddressed src_mailbox dst_mailbox) (close_both env).
Proof. unfold close_both. avoids_auto. Qed.

Lemma addressed_ensure_destination :
  avoids (misaddressed src_mailbox dst_mailbox) (ensure_mailbox env Dst dst_mailbox).
Proof. unfold ensure_mailbox. avoids_auto; addressed_leaf. Qed.

Lemma addressed_ensure_archive :
  avoids (misaddressed src_mailbox dst_mailbox)
    (ensure_mailbox env Src (archive_name src_mailbox)).
Proof. unfold ensure_mailbox. avoids_auto; addressed_leaf. Qed.

Lemma addressed_fetch_attempts batch_uids n :
  avoids (misaddressed src_mailbox dst_mailbox)
    (fetch_attempts env src_mailbox batch_uids n).
Proof.
  induction n as [|n IH]; simpl.
  - apply avoids_ret.
  - apply avoids_try_except; [avoids_auto|]. intros _.
    apply avoids_bind; [apply addressed_reconnect_imap|]. intros _.
    apply avoids_bind; [apply avoids_perform; addressed_leaf|]. intros _. exact IH.
Qed.

Lemma addressed_append_attempts msg n :
  avoids (misaddressed src_mailbox dst_mailbox)
    (append_attempts env dst_mailbox msg n).
Proof.
  induction n as [|n IH]; simpl.
  - apply avoids_ret.
  - apply avoids_try_except; [apply avoids_perform; addressed_leaf|]. intros _.
    apply avoids_bind; [apply addressed_reconnect_imap|]. intros _.
    apply avoids_bind; [apply addressed_ensure_destination|]. intros _. exact IH.
Qed.

Lemma addressed_safe_search_from max_retries base_delay n :
  forall attempt,
    avoids (misaddressed src_mailbox dst_mailbox)
      (safe_search_from env "ALL" max_retries base_delay n attempt).
Proof.
  induction n as [|n IH]; intros attempt; simpl.
  - apply avoids_ret.
  - apply avoids_try_except; [avoids_auto|]. intros e.
    destruct (attempt =? max_retries); [apply avoids_raise|].
    apply avoids_bind; [now apply avoids_emit|]. intros _. apply IH.
Qed.

Lemma addressed_process_uid dry_run fetch_data uid :
  avoids (misaddressed src_mailbox dst_mailbox)
    (process_uid env src_mailbox dst_mailbox (archive_name src_mailbox) dry_run
       fetch_data uid).
Proof.
  unfold process_uid.
  apply avoids_bind; [apply avoids_read_db|]. intros seen.
  destruct (truthy seen); [apply avoids_ret|].
  destruct (fetch_get fetch_data uid) as [raw|]; [|apply avoids_ret].
  apply avoids_bind; [|intros [|]; [apply avoids_write_db | apply avoids_ret]].
  unfold transfer_message. destruct (negb dry_run); [|apply avoids_ret].
  apply avoids_bind; [apply addressed_append_attempts|]. intros _.
  apply avoids_try_except; [|intros _; apply avoids_ret].
  apply avoids_bind; [apply avoids_perform; addressed_leaf|]. intros _. apply avoids_ret.
Qed.

Lemma addressed_process_batch dry_run sleep_between batch_uids :
  avoids (misaddressed src_mailbox dst_mailbox)
    (process_batch env src_mailbox dst_mailbox (archive_name src_mailbox) dry_run
       sleep_between batch_uids).
Proof.
  unfold process_batch.
  apply avoids_bind; [apply addressed_fetch_attempts|]. intros [d|]; [|apply avoids_ret].
  apply avoids_bind.
  - apply avoids_for_each. intros uid. apply addressed_process_uid.
  - intros _. destruct (0 <? sleep_between); [now apply avoids_emit | apply avoids_ret].
Qed.

Lemma addressed_migrate_mailbox batch sleep_between dry_run :
  avoids (misaddressed src_mailbox dst_mailbox)
    (migrate_mailbox env src_mailbox dst_mailbox batch sleep_between dry_run).
Proof.
  unfold migrate_mailbox.
  apply avoids_bind; [apply avoids_emit; addressed_leaf|]. intros _.
  apply avoids_bind; [unfold connect_imap; avoids_auto|]. intros _.
  apply avoids_bind; [unfold connect_imap; avoids_auto|]. intros _.
  apply avoids_bind; [apply addressed_ensure_destination|]. intros ensured.
  destruct (negb ensured); [apply addressed_close_both|].
  apply avoids_bind; [apply addressed_ensure_archive|]. intros _.
  apply avoids_bind.
  { apply avoids_try_except.
    - apply avoids_bind; [apply avoids_perform; addressed_leaf|].
      intros _. apply avoids_ret.
    - intros _. apply avoids_bind; [apply addressed_close_both|].
      intros _. apply avoids_ret. }
  intros selected. destruct (negb selected); [apply avoids_ret|].
  apply avoids_bind.
  { apply avoids_try_except.
    - apply avoids_bind; [apply addressed_safe_search_from|].
      intros found. apply avoids_ret.
    - intros _. apply avoids_bind; [apply addressed_close_both|].
      intros _. apply avoids_ret. }
  intros [[uids|]|]; [| |apply avoids_ret];
    (apply avoids_try_finally; [|apply addressed_close_both]).
  - apply avoids_bind; [unfold batches; avoids_auto|].
    intros bs. apply avoids_for_each. intros b. apply addressed_process_batch.
  - apply avoids_raise.
Qed.

End Addressing.

(** X16.  The mailboxes one pipeline names: [migrate_mailbox] appends
    only to its destination mailbox and moves only to the archive
    [Migrated/<source mailbox>]; on the source it selects only the source
    mailbox and the archive and creates only the archive; on the
    destination it selects and creates only the destination mailbox; it
    searches only for ALL and never lists mailboxes. *)
Theorem pipeline_names_only_its_mailboxes :
  forall env src_mailbox dst_mailbox batch sleep_between dry_run st r st' new ev,
    migrate_mailbox env src_mailbox dst_mailbox batch sleep_between dry_run st
      = (r, st') ->
    log st' = new ++ log st ->
    In ev new ->
    addressed src_mailbox dst_mailbox (call_of ev).
Proof.
  intros env src dst batch sleep dry st r st' new ev Hrun Hlog Hin.
  destruct (addressed_migrate_mailbox env src dst batch sleep dry _ _ _ Hrun)
    as (new' & L & F).
  rewrite L in Hlog. apply log_extension_unique in Hlog. subst new'.
  apply misaddressed_false. revert ev Hin. now apply Forall_forall.
Qed.

Lemma pipeline_names_only_its_mailboxes_witness :
  addressed "INBOX" "Imported"
    (call_of (Done (Move 1 "Migrated/INBOX"))).
Proof.
  refine (pipeline_names_only_its_mailboxes (scripted calm ["INBOX"] [1]) "INBOX"
            "Imported" 50 2 false fresh (Ok tt)
            (snd (migrate_mailbox (scripted calm ["INBOX"] [1]) "INBOX" "Imported" 50 2
                    false fresh))
            (log (snd (migrate_mailbox (scripted calm ["INBOX"] [1]) "INBOX" "Imported"
                         50 2 false fresh)))
            (Done (Move 1 "Migrated/INBOX")) _ _ _).
  - vm_compute. reflexivity.
  - vm_compute. reflexivity.
  - vm_compute. repeat (first [left; reflexivity | right]).
Defined.

Section Confined.

Context {A B : Type}.
Variable P : call -> Prop.

Lemma confined_of_avoids p (m : M A) :
  (forall c, p c = false -> P c) -> avoids p m -> confined P m.
Proof.
  intros Hp Hm st r st' E. destruct (Hm _ _ _ E) as (new & L & F).
  exists new. split; [exact L|].
  eapply Forall_impl; [|exact F]. intros ev. apply Hp.
Qed.

Lemma confined_ret (a : A) : confined P (ret a).
Proof.
  intros st r st' H. inversion H; subst. exists []. split; [reflexivity | constructor].
Qed.

Lemma confined_bind (Q : A -> Prop) (m : M A) (k : A -> M B) :
  confined P m -> yields Q m -> (forall a, Q a -> confined P (k a)) ->
  confined P (bind m k).
Proof.
  intros Hm Hq Hk st r st' H. unfold bind in H.
  destruct (m st) as [[a|e] s1] eqn:E.
  - destruct (Hm _ _ _ E) as (n1 & L1 & F1).
    destruct (Hk a (Hq _ _ _ E) _ _ _ H) as (n2 & L2 & F2).
    exists (n2 ++ n1). split; [now rewrite L2, L1, app_assoc|].
    apply Forall_app. now split.
  - inversion H; subst. exact (Hm _ _ _ E).
Qed.

End Confined.

Lemma confined_perform env (P : call -> Prop) c : P c -> confined P (perform env c).
Proof.
  intros Hc st r st' H. unfold perform in H.
  destruct (failure env (log st) c); inversion H; subst;
    (eexists [_]; split; [reflexivity | repeat constructor; exact Hc]).
Qed.

Lemma confined_for_each {A} (P : call -> Prop) (l : list A) (body : A -> M unit) :
  (forall x, In x l -> confined P (body x)) -> confined P (for_each l body).
Proof.
  induction l as [|x l IH]; intros Hb; simpl.
  - apply confined_ret.
  - apply (confined_bind P (fun _ => True)).
    + apply Hb. now left.
    + apply yields_any.
    + intros _ _. apply IH. intros y Hy. apply Hb. now right.
Qed.

Lemma addressed_routed env exclude_folders mapping h src_mailbox c :
  In src_mailbox (folders env h) ->
  excluded exclude_folders src_mailbox = false ->
  addressed src_mailbox (destination_of mapping src_mailbox) c ->
  routed env exclude_folders mapping c.
Proof.
  intros Hin Hex.
  destruct c as [s|s|s|s|[|] m|[|] m|criteria|uids|m msg|uid m|seconds|s d];
    cbn [addressed routed]; intros H; try exact I.
  - exists h, src_mailbox. auto.
  - exists h, src_mailbox. auto.
  - exists h, src_mailbox. auto.
  - exists h, src_mailbox. auto.
  - exists h, src_mailbox. auto.
  - destruct H as [-> ->]. split; [|reflexivity]. exists h, src_mailbox. auto.
Qed.

(** X17.  Where a whole run writes: [main] appends a message only to the
    mapped destination of a mailbox that the source listed and the
    exclusion list does not name, moves a message only to the archive of
    such a mailbox, and creates no mailbox but those; every pipeline it
    starts is for such a mailbox and is given its mapped destination. *)
Theorem run_writes_only_where_routed :
  forall env exclude_folders mapping dry_run st r st' new ev,
    main env exclude_folders mapping dry_run st = (r, st') ->
    log st' = new ++ log st ->
    In ev new ->
    routed env exclude_folders mapping (call_of ev).
Proof.
  intros env excl mapping dry st r st' new ev Hrun Hlog Hin.
  assert (Hc : confined (routed env excl mapping) (main env excl mapping dry)).
  { unfold main, connect_imap, list_mailboxes.
    apply (confined_bind _ (fun _ => True)); [|apply yields_any|intros _ _].
    { apply (confined_bind _ (fun _ => True)); [|apply yields_any|intros _ _];
        now apply confined_perform. }
    apply (confined_bind _ (fun l => exists h, l = folders env h)).
    { intros s0 r0 s1 H. unfold ask in H.
      destruct (failure env (log s0) (ListFolders Src)); inversion H; subst;
        (eexists [_]; split; [reflexivity | repeat constructor]). }
    { intros s0 a s1 H. unfold ask in H.
      destruct (failure env (log s0) (ListFolders Src)); inversion H; subst.
      now exists (log s0). }
    intros mailboxes (h & ->).
    apply (confined_bind _ (fun _ => True)); [|apply yields_any|intros _ _].
    { now apply confined_perform. }
    unfold migrate_all. apply confined_for_each. intros m Hm.
    destruct (excluded excl m) eqn:Hex; [apply confined_ret|].
    apply (confined_of_avoids _ (misaddressed m (destination_of mapping m))).
    - intros c Hmis. apply (addressed_routed env excl mapping h m c Hm Hex).
      now apply misaddressed_false.
    - apply addressed_migrate_mailbox. }
  destruct (Hc _ _ _ Hrun) as (new' & L & F).
  rewrite L in Hlog. apply log_extension_unique in Hlog. subst new'.
  revert ev Hin. now apply Forall_forall.
Qed.

Lemma run_writes_only_where_routed_witness :
  let env := scripted calm ["INBOX"; "Spam"] [1] in
  let mapping := Some [("INBOX", "Imported")] in
  routed env ["Spam"] mapping (call_of (Done (Append "Imported" sample_message))).
Proof.
  intros env mapping.
  refine (run_writes_only_where_routed env ["Spam"] mapping false fresh (Ok tt)
            (snd (main env ["Spam"] mapping false fresh))
            (log (snd (main env ["Spam"] mapping false fresh)))
            (Done (Append "Imported" sample_message)) _ _ _).
  - vm_compute. reflexivity.
  - vm_compute. reflexivity.
  - vm_compute. repeat (first [left; reflexivity | right]).
Defined.

(** ** The mapping *)

Lemma mapping_get_found mapping key :
  mapping_get mapping key key <> key ->
  In (key, mapping_get mapping key key) mapping.
Proof.
  induction mapping as [|[k v] rest IH]; simpl; intros H; [congruence|].
  destruct (String.eqb_spec k key) as [->|Hne].
  - now left.
  - right. now apply IH.
Qed.

(** X18.  A mailbox is renamed only by an entry of the mapping: when the
    destination differs from the source name, a mapping was given and
    holds the pair; without a mapping, with an empty one, or with one
    that has no entry for the mailbox, the destination is the source
    name. *)
Theorem destination_differs_only_by_mapping :
  forall mapping src_mailbox,
    destination_of mapping src_mailbox <> src_mailbox ->
    exists m, mapping = Some m /\
              In (src_mailbox, destination_of mapping src_mailbox) m.
Proof.
  intros [m|] src H; cbn [destination_of] in *; [|congruence].
  exists m. split; [reflexivity|]. now apply mapping_get_found.
Qed.

Lemma destination_differs_only_by_mapping_witness :
  exists m, Some [("Sent", "Sent Items"); ("INBOX", "Imported")] = Some m /\
            In ("INBOX",
                destination_of (Some [("Sent", "Sent Items"); ("INBOX", "Imported")])
                  "INBOX") m.
Proof.
  apply (destination_differs_only_by_mapping
           (Some [("Sent", "Sent Items"); ("INBOX", "Imported")]) "INBOX").
  vm_compute. discriminate.
Defined.

(** ** Reconnecting *)

(** X19.  [reconnect_imap] never fails because of the old session: it
    logs out once, whatever comes of it, sleeps three seconds, and then
    ends as the new connection does: normally after the login, or with the
    exception of the connection or of the login, which is the newest
    event. *)
Theorem reconnect_ignores_logout_failure :
  forall env s st r st' new,
    reconnect_imap env s st = (r, st') ->
    log st' = new ++ log st ->
    count (attempted is_logout) new = 1%nat /\
    slept new = 3 /\
    match r with
    | Ok _ => hd_error new = Some (Done (Login s))
    | Raise e => hd_error new = Some (Failed (Connect s) e) \/
                 hd_error new = Some (Failed (Login s) e)
    end.
Proof.
  intros env s st r st' new Hrun Hlog.
  unfold reconnect_imap, connect_imap, bind, try_except, emit, perform, ret in Hrun.
  destruct (failure env (log st) (Logout s)) as [e0|]; cbn [any_exception log with_log] in Hrun;
    (destruct (failure env _ (Connect s)) as [e1|]; cbn [log with_log] in Hrun;
     [|destruct (failure env _ (Login s)) as [e2|]; cbn [log with_log] in Hrun]);
    inversion Hrun; subst r st'; clear Hrun; cbn [log with_log] in Hlog;
    match type of Hlog with
    | ?a :: ?b :: ?c :: ?d :: log st = _ =>
        apply (log_extension_unique (log st) [a; b; c; d]) in Hlog
    | ?a :: ?b :: ?c :: log st = _ =>
        apply (log_extension_unique (log st) [a; b; c]) in Hlog
    end; subst new; cbn; auto.
Qed.

Lemma reconnect_ignores_logout_failure_witness :
  let fails := fun (_ : list event) c =>
                 match c with Logout _ => Some OtherException | _ => None end in
  let st' := snd (reconnect_imap (scripted fails [] []) Src fresh) in
  count (attempted is_logout) (log st') = 1%nat /\
  slept (log st') = 3 /\
  hd_error (log st') = Some (Done (Login Src)).
Proof.
  intros fails st'.
  refine (reconnect_ignores_logout_failure (scripted fails [] []) Src fresh (Ok tt) st'
            (log st') _ _).
  - vm_compute. reflexivity.
  - vm_compute. reflexivity.
Defined.

(** ** The exclusion list *)

Section Strip.

Variable isspace : Ascii.ascii -> bool.

Lemma rstrip_idempotent s : rstrip isspace (rstrip isspace s) = rstrip isspace s.
Proof.
  induction s as [|c s IH]; [reflexivity|].
  cbn [rstrip]. destruct (rstrip isspace s) as [|c' kept] eqn:E.
  - destruct (isspace c) eqn:Ec; [reflexivity|]. cbn [rstrip]. now rewrite Ec.
  - cbn [rstrip]. cbn [rstrip] in IH. now rewrite IH.
Qed.

Lemma lstrip_head s :
  match lstrip isspace s with
  | EmptyString => True
  | String c _ => isspace c = false
  end.
Proof.
  induction s as [|c s IH]; [exact I|]. cbn [lstrip].
  destruct (isspace c) eqn:Ec; [exact IH | exact Ec].
Qed.

Lemma rstrip_keeps_head c s :
  rstrip isspace (String c s) = EmptyString \/
  exists kept, rstrip isspace (String c s) = String c kept.
Proof.
  cbn [rstrip]. destruct (rstrip isspace s) as [|c' kept].
  - destruct (isspace c); [now left | right; now exists EmptyString].
  - right. now eexists.
Qed.

Lemma strip_idempotent s : strip isspace (strip isspace s) = strip isspace s.
Proof.
  unfold strip. pose proof (lstrip_head s) as Hh.
  destruct (lstrip isspace s) as [|c rest] eqn:E; [reflexivity|].
  destruct (rstrip_keeps_head c rest) as [Hr|(kept & Hr)].
  - now rewrite Hr.
  - assert (Hl : lstrip isspace (rstrip isspace (String c rest))
                 = rstrip isspace (String c rest))
      by (rewrite Hr; cbn [lstrip]; now rewrite Hh).
    rewrite Hl. apply rstrip_idempotent.
Qed.

End Strip.

(** X20.  Only a stripped, non-empty name can be excluded: a mailbox that
    the loaded exclusion list names is the stripped text of a line of the
    file, is not empty, and has no whitespace at either end, so a mailbox
    whose name starts or ends with whitespace is never excluded. *)
Theorem excluded_names_are_stripped :
  forall isspace lines mailbox,
    excluded (load_exclude_list isspace lines) mailbox = true ->
    mailbox <> EmptyString /\
    strip isspace mailbox = mailbox /\
    exists line, In line lines /\ strip isspace line = mailbox.
Proof.
  intros isspace lines mailbox H. unfold excluded in H.
  apply existsb_exists in H. destruct H as (name & Hin & Heq).
  apply String.eqb_eq in Heq. subst name.
  unfold load_exclude_list in Hin. apply in_map_iff in Hin.
  destruct Hin as (line & Hs & Hl). apply filter_In in Hl. destruct Hl as [Hl Hne].
  rewrite Hs in Hne. split; [|split].
  - intros ->. discriminate Hne.
  - rewrite <- Hs. apply strip_idempotent.
  - now exists line.
Qed.

Lemma excluded_names_are_stripped_witness :
  let newline := Ascii.ascii_of_nat 10 in
  let isspace := fun c => Ascii.eqb c (Ascii.ascii_of_nat 32) || Ascii.eqb c newline in
  let lines := [(" Spam " ++ String newline EmptyString)%string;
                String newline EmptyString] in
  "Spam" <> EmptyString /\
  strip isspace "Spam" = "Spam" /\
  exists line, In line lines /\ strip isspace line = "Spam".
Proof.
  intros newline isspace lines.
  apply (excluded_names_are_stripped isspace lines "Spam").
  vm_compute. reflexivity.
Defined.
